(** * Sum-reduction kernels of [reduce.c]

    The four OpenCL kernels of [src/main/resources/reduce.c]
    ([reduceHybrid], [reduceBarrier], [reduceSimd], [getSimdWidth]) and the
    helper [accumulateVolatile], embedded as Rocq functions.

    The control flow of every kernel depends only on the coordinates of the
    work-item (local id, group id, group size, sub-group width) and on
    [inputLength], never on the data.  A kernel is therefore embedded as the
    function that maps the coordinates of a work-item to the sequence of
    memory events this work-item goes through, one event per statement, a
    statement whose guard is false being recorded as [Masked].

    The work-items of one group are executed position by position: at every
    position all of them read the local memory, and then all of them write
    it.  This is what the barriers of [reduceBarrier] enforce (between two
    barriers a work-item executes one statement, and these statements do
    not interfere, see [fenced_round_race_free]) and what the lockstep
    execution of one sub-group provides to [reduceSimd] and to the second
    loop of [reduceHybrid]; it is the reason why the caller must keep the
    group of [reduceSimd] within one sub-group.

    Indices are OpenCL [uint]s: integers, with the wrap-around of the
    conversions and additions written out.  The local memory of a group is
    a total map from slot indices to values: the slots from the group size
    on stand for what lies behind the scratch buffer, and the initial
    content is arbitrary.  A statement proved for every initial memory
    therefore depends neither on uninitialised slots nor on what a read
    behind the buffer returns.

    [double] values are kept abstract: a type [V] with a binary operation
    [add].  Statements about sums assume [add] to be associative and
    commutative with a neutral element (exact addition); the statements that
    compare the variants need no law at all. *)

From Stdlib Require Import ZArith List Bool Lia.
Import ListNotations.
Local Open Scope Z_scope.

(** ** OpenCL [uint] arithmetic *)

Definition uint_modulus : Z := 2 ^ 32.

(** Conversion to [uint] (of a [size_t], or of the result of an operation). *)
Definition to_uint (x : Z) : Z := x mod uint_modulus.

(** [x + y] on [uint]. *)
Definition uadd (x y : Z) : Z := to_uint (x + y).

(** [x >> 1]. *)
Definition ushr1 (x : Z) : Z := Z.shiftr x 1.

(** ** Events of a work-item *)

Inductive event : Type :=
| Load (globalIndex targetIndex : Z)
    (** [localSlice[targetIndex] = input[globalIndex]] *)
| Accumulate (activeThreadCount sourceIndex targetIndex : Z)
    (** [localSlice[targetIndex] += localSlice[sourceIndex]]; the first field
        records the value of [activeThreadCount] at this step and plays no
        part in the execution *)
| Fence
    (** [barrier(CLK_LOCAL_MEM_FENCE)] *)
| Store (slot : Z)
    (** [results[slot] = localSlice[0]] *)
| Probe (slot value : Z)
    (** [simdWidth[slot] = value] *)
| Masked.
    (** a guarded statement whose guard is false *)

(** Coordinates of a work-item, as the OpenCL built-ins report them. *)
Record workitem : Type := WorkItem {
  get_local_id : Z;
  get_group_id : Z;
  get_local_size : Z;
  get_max_sub_group_size : Z
}.

(** One-dimensional range without global offset. *)
Definition get_global_id (w : workitem) : Z :=
  get_group_id w * get_local_size w + get_local_id w.

(** ** The loops

    [activeThreadCount] is a [uint] that is shifted right by one at the end
    of every iteration: the loops recurse on its binary representation. *)

Section Loops.
Variable body : Z -> list event.

(** [while (a > 0) { body; a >>= 1; }] for [a = Zpos p] *)
Fixpoint while_pos (p : positive) : list event :=
  body (Zpos p) ++
  match p with
  | xH => []
  | xO q | xI q => while_pos q
  end.

(** [while (a > 0) { body; a >>= 1; }] *)
Definition while_positive (a : Z) : list event :=
  match a with
  | Zpos p => while_pos p
  | _ => []
  end.

(** [while (a > bound) { body; a >>= 1; }], together with the value of [a]
    when the loop is left *)
Fixpoint while_above_pos (bound : Z) (p : positive) : list event * Z :=
  if bound <? Zpos p then
    let r := match p with
             | xH => ([], 0)
             | xO q | xI q => while_above_pos bound q
             end in
    (body (Zpos p) ++ fst r, snd r)
  else ([], Zpos p).

(** [while (a > bound) { body; a >>= 1; }] for a [bound] that is not
    negative, and the value of [a] after the loop *)
Definition while_above (bound a : Z) : list event * Z :=
  match a with
  | Zpos p => while_above_pos bound p
  | _ => ([], a)
  end.
End Loops.

(** ** The kernels *)

(** [accumulateVolatile] (lines 7-9); the last argument is the annotation
    of the event, the value of [activeThreadCount] at the call. *)
Definition accumulateVolatile (sourceIndex targetIndex : Z)
    (activeThreadCount : Z) : event :=
  Accumulate activeThreadCount sourceIndex targetIndex.

(** The guarded combine step of the fenced loops (lines 30-36 and 70-76). *)
Definition fenced_round (i globalIndex inputLength : Z)
    (activeThreadCount : Z) : list event :=
  [ if (i <? activeThreadCount)
       && (uadd globalIndex activeThreadCount <? inputLength)
    then Accumulate activeThreadCount (uadd i activeThreadCount) i
    else Masked;
    Fence ].

(** [reduceHybrid] (lines 13-50).  A work-item that returns at line 41 has
    no event after the fenced loop. *)
Definition reduceHybrid (w : workitem) (inputLength : Z) : list event :=
  let i := to_uint (get_local_id w) in
  let globalIndex := to_uint (get_global_id w) in
  let simdWidth := to_uint (get_max_sub_group_size w) in
  let phase1 :=
    while_above (fenced_round i globalIndex inputLength) simdWidth
      (to_uint (ushr1 (get_local_size w))) in
  (if globalIndex <? inputLength then Load globalIndex i else Masked)
  :: Fence
  :: fst phase1
  ++ (if simdWidth <=? i then []
      else
        while_positive
          (fun activeThreadCount =>
             [ if uadd globalIndex activeThreadCount <? inputLength
               then accumulateVolatile (uadd i activeThreadCount) i
                      activeThreadCount
               else Masked ])
          (snd phase1)
        ++ [ if i =? 0 then Store (get_group_id w) else Masked ]).

(** [reduceBarrier] (lines 54-81). *)
Definition reduceBarrier (w : workitem) (inputLength : Z) : list event :=
  let i := to_uint (get_local_id w) in
  let globalIndex := to_uint (get_global_id w) in
  (if globalIndex <? inputLength then Load globalIndex i else Masked)
  :: Fence
  :: while_positive (fenced_round i globalIndex inputLength)
       (to_uint (ushr1 (get_local_size w)))
  ++ [ if i =? 0 then Store (get_group_id w) else Masked ].

(** [reduceSimd] (lines 86-108): no barrier, and the final write is not
    gated. *)
Definition reduceSimd (w : workitem) (inputLength : Z) : list event :=
  let i := to_uint (get_local_id w) in
  let globalIndex := to_uint (get_global_id w) in
  (if globalIndex <? inputLength then Load globalIndex i else Masked)
  :: while_positive
       (fun activeThreadCount =>
          [ if uadd globalIndex activeThreadCount <? inputLength
            then Accumulate activeThreadCount (uadd i activeThreadCount) i
            else Masked ])
       (to_uint (ushr1 (get_local_size w)))
  ++ [ Store (get_group_id w) ].

(** [getSimdWidth] (lines 113-115). *)
Definition getSimdWidth (w : workitem) : list event :=
  [ if get_local_id w =? 0 then Probe 0 (get_max_sub_group_size w)
    else Masked ].

(** ** Execution of a work-group *)

Section Execution.
Variable V : Type.
Variable add : V -> V -> V.

(** Local memory as the group sees it from [localSlice] on: the slots from
    [get_local_size] on lie behind the scratch buffer.  Its initial
    content is arbitrary, local memory is not initialised. *)
Definition mem : Type := Z -> V.

Definition upd (m : mem) (d : Z) (v : V) : mem :=
  fun j => if j =? d then v else m j.

(** A write to the output buffer: writer (local id), slot, value. *)
Definition write : Type := (Z * Z * V)%type.

Section Group.
Variable input : Z -> V.
Variable threads : list Z.

(** What an event writes to the local memory [m] of the group: slot and
    value.  [None] as event is a work-item that has returned. *)
Definition local_effect (m : mem) (oe : option event) : option (Z * V) :=
  match oe with
  | Some (Load g d) => Some (d, input g)
  | Some (Accumulate _ s d) => Some (d, add (m d) (m s))
  | _ => None
  end.

(** What an event of work-item [i] writes to the output buffer. *)
Definition global_effect (m : mem) (i : Z) (oe : option event)
  : list write :=
  match oe with
  | Some (Store slot) => [(i, slot, m 0)]
  | _ => []
  end.

(** One position: every work-item reads the memory [m] as it is before
    the position, then the writes take place, in the order of the local
    ids (the kernels never write a slot twice at one position: a work-item
    writes its own slot, see [own_slot]). *)
Definition step_mem (cur : Z -> option event) (m : mem) : mem :=
  fold_left
    (fun acc i =>
       match local_effect m (cur i) with
       | Some (d, v) => upd acc d v
       | None => acc
       end)
    threads m.

Definition step_log (cur : Z -> option event) (m : mem) : list write :=
  flat_map (fun i => global_effect m i (cur i)) threads.

Definition step (cur : Z -> option event) (st : mem * list write)
  : mem * list write :=
  (step_mem cur (fst st), snd st ++ step_log cur (fst st)).

(** [n] positions of the traces [tr] of the work-items. *)
Fixpoint run (n : nat) (tr : Z -> list event) (st : mem * list write)
  : mem * list write :=
  match n with
  | O => st
  | S n' =>
      run n' (fun i => tl (tr i)) (step (fun i => hd_error (tr i)) st)
  end.

(** Number of positions: the length of the longest trace. *)
Definition positions (tr : Z -> list event) : nat :=
  fold_right Nat.max O (map (fun i => length (tr i)) threads).

(** A group runs its traces to their end, from the local memory [m0]:
    the local memory it leaves and the writes to the output buffer. *)
Definition run_group (tr : Z -> list event) (m0 : mem)
  : mem * list write :=
  run (positions tr) tr (m0, []).
End Group.

(** Local ids of a group of [n] work-items, group ids of [n] groups. *)
Definition ids (n : Z) : list Z := map Z.of_nat (seq 0 (Z.to_nat n)).

(** One dispatch of a kernel: [numGroups] groups of [localSize]
    work-items.  Groups share nothing but the output buffer; group [k]
    starts on the local memory [scratch k]. *)
Definition dispatch (kernel : workitem -> Z -> list event)
    (localSize simdWidth numGroups : Z)
    (input : Z -> V) (inputLength : Z) (scratch : Z -> mem)
  : list write :=
  flat_map
    (fun k =>
       snd (run_group input (ids localSize)
              (fun i => kernel (WorkItem i k localSize simdWidth)
                          inputLength)
              (scratch k)))
    (ids numGroups).

(** The output buffer after the writes of a dispatch. *)
Definition replay (log : list write) (results : Z -> V) : Z -> V :=
  fold_left (fun r w => upd r (snd (fst w)) (snd w)) log results.

(** What the host reads back: the first [n] slots. *)
Definition read_back (n : Z) (results : Z -> V) : list V :=
  map results (ids n).

(** A host buffer seen from the device; [junk] stands for whatever lies
    outside of it. *)
Definition buffer (l : list V) (junk : V) : Z -> V :=
  fun g => nth (Z.to_nat g) l junk.
End Execution.

Arguments upd {V} m d v j /.
Arguments local_effect {V} add input m oe.
Arguments global_effect {V} m i oe.
Arguments step_mem {V} add input threads cur m.
Arguments step_log {V} threads cur m.
Arguments step {V} add input threads cur st.
Arguments run {V} add input threads n tr st.
Arguments run_group {V} add input threads tr m0.
Arguments dispatch {V} add kernel localSize simdWidth numGroups input
  inputLength scratch.
Arguments replay {V} log results.
Arguments read_back {V} n results.
Arguments buffer {V} l junk g /.

(** * Vocabulary of the statements *)

(** Group sizes that are powers of two. *)
Definition pow2 (e : nat) : Z := 2 ^ Z.of_nat e.

(** The sum of a sequence, for an addition [add] with neutral element
    [zero]. *)
Definition total (V : Type) (add : V -> V -> V) (zero : V) (l : list V) : V :=
  fold_right add zero l.

(** The part of a sequence that falls to group [groupId]. *)
Definition tile {V : Type} (l : list V) (localSize groupId : Z) : list V :=
  firstn (Z.to_nat localSize) (skipn (Z.to_nat (groupId * localSize)) l).

(** The slot, the value and the writers of the writes of a log. *)
Definition slot_of {V : Type} (w : write V) : Z := snd (fst w).

Definition value_of {V : Type} (w : write V) : V := snd w.

Definition writers {V : Type} (log : list (write V)) : list Z :=
  map (fun w => fst (fst w)) log.

(** A trace that contains the initial load. *)
Definition performs_load (t : list event) : Prop :=
  exists g d, In (Load g d) t.

(** The work-items of a group that reach a [Store] are work-item 0 alone. *)
Definition only_first_stores (kernel : workitem -> Z -> list event)
    (localSize simdWidth groupId inputLength : Z) : Prop :=
  forall i slot,
    0 <= i < localSize ->
    In (Store slot) (kernel (WorkItem i groupId localSize simdWidth)
                       inputLength) ->
    i = 0.

(** Slot [s] lies inside the scratch buffer of the group and its owner, the
    work-item with local index [s], has loaded an element of the input into
    it. *)
Definition slot_loaded (kernel : workitem -> Z -> list event)
    (localSize simdWidth groupId inputLength : Z) (s : Z) : Prop :=
  0 <= s < localSize
  /\ In (Load (groupId * localSize + s) s)
       (kernel (WorkItem s groupId localSize simdWidth) inputLength).

(** Every combine step of every work-item of the group reads a loaded slot
    of the buffer. *)
Definition sources_loaded (kernel : workitem -> Z -> list event)
    (localSize simdWidth groupId inputLength : Z) : Prop :=
  forall i n s d,
    0 <= i < localSize ->
    In (Accumulate n s d)
      (kernel (WorkItem i groupId localSize simdWidth) inputLength) ->
    slot_loaded kernel localSize simdWidth groupId inputLength s.

(** * Properties *)

(** ** The loops follow the C [while] *)

Lemma while_positive_unfold (body : Z -> list event) (a : Z) :
  while_positive body a =
  if 0 <? a then body a ++ while_positive body (ushr1 a) else [].
Proof.
  destruct a as [|p|p]; try reflexivity.
  destruct p; reflexivity.
Qed.

Lemma while_above_unfold (body : Z -> list event) (bound a : Z) :
  0 <= bound ->
  while_above body bound a =
  if bound <? a
  then (body a ++ fst (while_above body bound (ushr1 a)),
        snd (while_above body bound (ushr1 a)))
  else ([], a).
Proof.
  intros Hb. destruct a as [|p|p]; simpl.
  - destruct (bound <? 0) eqn:E; [apply Z.ltb_lt in E; lia | reflexivity].
  - destruct p; simpl; destruct (bound <? _); reflexivity.
  - destruct (bound <? Z.neg p) eqn:E; [apply Z.ltb_lt in E; lia | reflexivity].
Qed.

(** ** Executing a group *)

Section RunFacts.
Variable V : Type.
Variable add : V -> V -> V.
Variable input : Z -> V.

(** Every work-item writes its own slot only. *)
Definition own_slot (threads : list Z) (cur : Z -> option event) : Prop :=
  forall i, In i threads ->
    match cur i with
    | Some (Load _ d) | Some (Accumulate _ _ d) => d = i
    | _ => True
    end.

Lemma own_slot_effect threads cur (m : mem V) i d v :
  own_slot threads cur -> In i threads ->
  local_effect add input m (cur i) = Some (d, v) -> d = i.
Proof.
  intros Ho Hi He. specialize (Ho i Hi).
  destruct (cur i) as [[]|]; simpl in He; inversion He; subst; auto.
Qed.

Lemma fold_writes_other (m : mem V) cur l acc j :
  (forall i, In i l -> forall d v,
      local_effect add input m (cur i) = Some (d, v) -> d = i) ->
  ~ In j l ->
  fold_left
    (fun acc i =>
       match local_effect add input m (cur i) with
       | Some (d, v) => upd acc d v
       | None => acc
       end) l acc j = acc j.
Proof.
  revert acc. induction l as [|a l IH]; intros acc Ho Hj; simpl; auto.
  rewrite IH.
  - destruct (local_effect add input m (cur a)) as [[d v]|] eqn:E; auto.
    apply (Ho a (or_introl eq_refl)) in E. subst d. simpl.
    destruct (j =? a) eqn:Eja; auto.
    apply Z.eqb_eq in Eja. subst. exfalso. apply Hj. left. reflexivity.
  - intros i Hi. apply Ho. right. exact Hi.
  - intros H. apply Hj. right. exact H.
Qed.

Lemma fold_writes_own (m : mem V) cur l acc j :
  (forall i, In i l -> forall d v,
      local_effect add input m (cur i) = Some (d, v) -> d = i) ->
  In j l ->
  fold_left
    (fun acc i =>
       match local_effect add input m (cur i) with
       | Some (d, v) => upd acc d v
       | None => acc
       end) l acc j =
  match local_effect add input m (cur j) with
  | Some (_, v) => v
  | None => acc j
  end.
Proof.
  revert acc. induction l as [|a l IH]; intros acc Ho Hj; simpl.
  - destruct Hj.
  - assert (Hol : forall i, In i l -> forall d v,
               local_effect add input m (cur i) = Some (d, v) -> d = i)
      by (intros i Hi; apply Ho; right; exact Hi).
    assert (Ha : forall d v,
               local_effect add input m (cur a) = Some (d, v) -> d = a)
      by (apply Ho; left; reflexivity).
    destruct (in_dec Z.eq_dec j l) as [Hin|Hnin].
    + rewrite IH by assumption.
      destruct (local_effect add input m (cur j)) as [[d v]|] eqn:Ej; auto.
      destruct (local_effect add input m (cur a)) as [[d v]|] eqn:Ea; auto.
      specialize (Ha _ _ eq_refl). subst d. simpl.
      destruct (j =? a) eqn:Eja; auto.
      apply Z.eqb_eq in Eja. subst. congruence.
    + rewrite fold_writes_other by assumption.
      destruct Hj as [->|Hj]; [|contradiction].
      destruct (local_effect add input m (cur j)) as [[d v]|] eqn:Ej; auto.
      specialize (Ha _ _ eq_refl). subst d. simpl. rewrite Z.eqb_refl.
      reflexivity.
Qed.

(** The memory after one position, slot by slot. *)
Lemma step_mem_own threads cur m j :
  own_slot threads cur -> In j threads ->
  step_mem add input threads cur m j =
  match local_effect add input m (cur j) with
  | Some (_, v) => v
  | None => m j
  end.
Proof.
  intros Ho Hj. unfold step_mem.
  apply fold_writes_own; auto.
  intros i Hi d v E. exact (own_slot_effect threads cur m i d v Ho Hi E).
Qed.

Lemma step_mem_other threads cur m j :
  own_slot threads cur -> ~ In j threads ->
  step_mem add input threads cur m j = m j.
Proof.
  intros Ho Hj. unfold step_mem.
  apply fold_writes_other; auto.
  intros i Hi d v E. exact (own_slot_effect threads cur m i d v Ho Hi E).
Qed.

(** A position at which no work-item touches the local memory. *)
Definition silent (threads : list Z) (cur : Z -> option event) : Prop :=
  forall i, In i threads ->
    match cur i with
    | Some (Load _ _) | Some (Accumulate _ _ _) => False
    | _ => True
    end.

Lemma fold_writes_silent (m : mem V) (cur : Z -> option event) l acc :
  (forall i, In i l -> local_effect add input m (cur i) = None) ->
  fold_left
    (fun acc i =>
       match local_effect add input m (cur i) with
       | Some (d, v) => upd acc d v
       | None => acc
       end) l acc = acc.
Proof.
  revert acc. induction l as [|a l IH]; intros acc H; simpl; auto.
  rewrite (H a (or_introl eq_refl)).
  apply IH. intros i Hi. apply H. right. exact Hi.
Qed.

Lemma step_mem_silent threads cur m :
  silent threads cur -> step_mem add input threads cur m = m.
Proof.
  intros H. unfold step_mem. apply fold_writes_silent.
  intros i Hi. specialize (H i Hi).
  destruct (cur i) as [[]|]; simpl; auto; contradiction.
Qed.

(** A position at which no work-item writes to the output buffer. *)
Definition storeless (threads : list Z) (cur : Z -> option event) : Prop :=
  forall i, In i threads ->
    match cur i with
    | Some (Store _) => False
    | _ => True
    end.

Lemma step_log_storeless threads cur (m : mem V) :
  storeless threads cur -> step_log threads cur m = [].
Proof.
  unfold step_log, storeless.
  induction threads as [|a l IH]; intros H; simpl; auto.
  rewrite IH by (intros i Hi; apply H; right; exact Hi).
  assert (Ha := H a (or_introl eq_refl)).
  destruct (cur a) as [[]|]; simpl; auto; contradiction.
Qed.

Lemma step_ext threads cur cur' st :
  (forall i, In i threads -> cur i = cur' i) ->
  step add input threads cur st = step add input threads cur' st.
Proof.
  intros H. unfold step, step_mem, step_log.
  f_equal.
  - generalize (fst st) at 2 4. intros acc. revert acc.
    induction threads as [|a l IH]; intros acc; simpl; auto.
    rewrite (H a (or_introl eq_refl)).
    apply IH. intros i Hi. apply H. right. exact Hi.
  - f_equal. induction threads as [|a l IH]; simpl; auto.
    rewrite (H a (or_introl eq_refl)). f_equal.
    apply IH. intros i Hi. apply H. right. exact Hi.
Qed.

Lemma run_ext threads n : forall tr tr' st,
  (forall i, In i threads -> tr i = tr' i) ->
  run add input threads n tr st = run add input threads n tr' st.
Proof.
  induction n as [|n IH]; intros tr tr' st H; simpl; auto.
  rewrite (step_ext threads
             (fun i => hd_error (tr i)) (fun i => hd_error (tr' i)))
    by (intros i Hi; rewrite (H i Hi); reflexivity).
  apply IH. intros i Hi. rewrite (H i Hi). reflexivity.
Qed.

(** *** Position by position *)

Definition run_all (threads : list Z) (tr : Z -> list event)
    (st : mem V * list (write V)) : mem V * list (write V) :=
  run add input threads (positions threads tr) tr st.

Lemma run_group_run_all threads tr m0 :
  run_group add input threads tr m0 = run_all threads tr (m0, []).
Proof. reflexivity. Qed.

Lemma positions_ext threads tr tr' :
  (forall i, In i threads -> tr i = tr' i) ->
  positions threads tr = positions threads tr'.
Proof.
  intros H. unfold positions. f_equal. apply map_ext_in.
  intros i Hi. rewrite (H i Hi). reflexivity.
Qed.

Lemma positions_nil threads tr :
  (forall i, In i threads -> tr i = []) -> positions threads tr = O.
Proof.
  unfold positions. induction threads as [|a l IH]; intros H; simpl; auto.
  rewrite (H a (or_introl eq_refl)), IH; auto.
  intros i Hi. apply H. right. exact Hi.
Qed.

Lemma positions_tl threads tr :
  positions threads (fun i => tl (tr i)) = Nat.pred (positions threads tr).
Proof.
  unfold positions. induction threads as [|a l IH]; simpl; auto.
  rewrite IH. destruct (tr a); cbn [tl length]; lia.
Qed.

Lemma positions_pos threads tr i :
  In i threads -> tr i <> [] -> (0 < positions threads tr)%nat.
Proof.
  unfold positions. induction threads as [|a l IH]; intros Hi Hn; simpl.
  - destruct Hi.
  - destruct Hi as [->|Hi].
    + destruct (tr i); [congruence | cbn [length]; lia].
    + specialize (IH Hi Hn). lia.
Qed.

Lemma run_all_ext threads tr tr' st :
  (forall i, In i threads -> tr i = tr' i) ->
  run_all threads tr st = run_all threads tr' st.
Proof.
  intros H. unfold run_all.
  rewrite (positions_ext threads tr tr' H). apply run_ext. exact H.
Qed.

Lemma run_all_nil threads tr st :
  (forall i, In i threads -> tr i = []) -> run_all threads tr st = st.
Proof.
  intros H. unfold run_all. rewrite (positions_nil threads tr H).
  reflexivity.
Qed.

Lemma run_all_unfold threads tr st i :
  In i threads -> tr i <> [] ->
  run_all threads tr st =
  run_all threads (fun i => tl (tr i))
    (step add input threads (fun i => hd_error (tr i)) st).
Proof.
  intros Hi Hn. unfold run_all. rewrite positions_tl.
  pose proof (positions_pos threads tr i Hi Hn) as Hp.
  destruct (positions threads tr); [lia | reflexivity].
Qed.

(** All work-items of the group are at a statement. *)
Lemma run_all_cons threads e r st :
  threads <> [] ->
  run_all threads (fun i => e i :: r i) st =
  run_all threads r (step add input threads (fun i => Some (e i)) st).
Proof.
  intros Hne. destruct threads as [|a l]; [congruence|].
  rewrite (run_all_unfold (a :: l) _ st a);
    [reflexivity | left; reflexivity | discriminate].
Qed.

Lemma step_quiet threads cur (st : mem V * list (write V)) :
  silent threads cur -> storeless threads cur ->
  step add input threads cur st = st.
Proof.
  intros Hs Hl. destruct st as [m log]. unfold step. simpl.
  rewrite step_mem_silent, step_log_storeless by assumption.
  rewrite app_nil_r. reflexivity.
Qed.

Lemma step_fence threads (st : mem V * list (write V)) :
  step add input threads (fun _ => Some Fence) st = st.
Proof. apply step_quiet; intros i _; exact I. Qed.

Lemma step_storeless threads cur (m : mem V) log :
  storeless threads cur ->
  step add input threads cur (m, log) =
  (step_mem add input threads cur m, log).
Proof.
  intros Hl. unfold step. simpl.
  rewrite step_log_storeless by assumption.
  rewrite app_nil_r. reflexivity.
Qed.

(** *** The loops, on the state of the group *)

Section StateLoop.
Variable S : Type.
Variable round : Z -> S -> S.

Fixpoint loop_pos (p : positive) (st : S) : S :=
  let st' := round (Zpos p) st in
  match p with
  | xH => st'
  | xO q | xI q => loop_pos q st'
  end.

Definition loop (a : Z) (st : S) : S :=
  match a with
  | Zpos p => loop_pos p st
  | _ => st
  end.

Lemma loop_unfold a st :
  loop a st = if 0 <? a then loop (ushr1 a) (round a st) else st.
Proof.
  destruct a as [|p|p]; try reflexivity.
  destruct p; reflexivity.
Qed.
End StateLoop.

Lemma run_all_fenced_loop threads (x : Z -> Z -> event) rest :
  threads <> [] ->
  forall a st,
  run_all threads
    (fun i => while_positive (fun n => [x i n; Fence]) a ++ rest i) st =
  run_all threads rest
    (loop _ (fun n => step add input threads (fun i => Some (x i n))) a st).
Proof.
  intros Hne a st. destruct a as [|p|p]; try reflexivity.
  simpl. revert st.
  induction p as [q IH|q IH|]; intros st; simpl;
    rewrite run_all_cons by assumption;
    rewrite run_all_cons by assumption;
    rewrite step_fence; auto.
Qed.

Lemma run_all_unfenced_loop threads (x : Z -> Z -> event) rest :
  threads <> [] ->
  forall a st,
  run_all threads
    (fun i => while_positive (fun n => [x i n]) a ++ rest i) st =
  run_all threads rest
    (loop _ (fun n => step add input threads (fun i => Some (x i n))) a st).
Proof.
  intros Hne a st. destruct a as [|p|p]; try reflexivity.
  simpl. revert st.
  induction p as [q IH|q IH|]; intros st; simpl;
    rewrite run_all_cons by assumption; auto.
Qed.
(** The loop that stops above a bound, on the state of the group. *)
Section StateLoopAbove.
Variable S : Type.
Variable round : Z -> S -> S.

Fixpoint loop_above_pos (bound : Z) (p : positive) (st : S) : S :=
  if bound <? Zpos p then
    let st' := round (Zpos p) st in
    match p with
    | xH => st'
    | xO q | xI q => loop_above_pos bound q st'
    end
  else st.

Definition loop_above (bound a : Z) (st : S) : S :=
  match a with
  | Zpos p => loop_above_pos bound p st
  | _ => st
  end.
End StateLoopAbove.

(** The value of [activeThreadCount] when the fenced loop of
    [reduceHybrid] is left. *)
Definition final_count (bound a : Z) : Z :=
  snd (while_above (fun _ => []) bound a).

Lemma snd_while_above body bound a :
  snd (while_above body bound a) = final_count bound a.
Proof.
  unfold final_count. destruct a as [|p|p]; try reflexivity. simpl.
  induction p as [q IH|q IH|]; simpl; destruct (bound <? _); simpl; auto.
Qed.

Lemma run_all_above_loop threads (x : Z -> Z -> event) rest bound :
  threads <> [] ->
  forall a st,
  run_all threads
    (fun i => fst (while_above (fun n => [x i n; Fence]) bound a) ++ rest i)
    st =
  run_all threads rest
    (loop_above _ (fun n => step add input threads (fun i => Some (x i n)))
       bound a st).
Proof.
  intros Hne a st. destruct a as [|p|p]; try reflexivity.
  simpl. revert st.
  induction p as [q IH|q IH|]; intros st; simpl;
    destruct (bound <? _); simpl; auto;
    rewrite run_all_cons by assumption;
    rewrite run_all_cons by assumption;
    rewrite step_fence; auto.
Qed.

(** Work-items that have returned take no part in a position. *)
Lemma run_all_cons_alive threads (dead : Z -> bool) e r st i0 :
  In i0 threads -> dead i0 = false ->
  run_all threads (fun i => if dead i then [] else e i :: r i) st =
  run_all threads (fun i => if dead i then [] else r i)
    (step add input threads
       (fun i => if dead i then None else Some (e i)) st).
Proof.
  intros Hi Hd.
  rewrite (run_all_unfold threads _ st i0 Hi)
    by (rewrite Hd; discriminate).
  rewrite (step_ext threads _
             (fun i => if dead i then None else Some (e i)))
    by (intros i _; destruct (dead i); reflexivity).
  apply run_all_ext. intros i _. destruct (dead i); reflexivity.
Qed.

Lemma run_all_unfenced_loop_alive threads (dead : Z -> bool)
    (x : Z -> Z -> event) rest i0 :
  In i0 threads -> dead i0 = false ->
  forall a st,
  run_all threads
    (fun i => if dead i then []
              else while_positive (fun n => [x i n]) a ++ rest i) st =
  run_all threads (fun i => if dead i then [] else rest i)
    (loop _
       (fun n => step add input threads
                   (fun i => if dead i then None else Some (x i n)))
       a st).
Proof.
  intros Hi Hd a st. destruct a as [|p|p]; try reflexivity.
  simpl. revert st.
  induction p as [q IH|q IH|]; intros st; simpl;
    rewrite (run_all_cons_alive threads dead _ _ _ i0 Hi Hd); auto.
Qed.
Lemma loop_split (S : Type) (round : Z -> S -> S) bound a st :
  loop S round a st =
  loop S round (final_count bound a) (loop_above S round bound a st).
Proof.
  unfold final_count. destruct a as [|p|p]; try reflexivity.
  simpl. revert st.
  induction p as [q IH|q IH|]; intros st; simpl;
    destruct (bound <? _); simpl; auto.
Qed.

Lemma final_count_bound bound a : 0 <= bound -> final_count bound a <= bound.
Proof.
  intros Hb. unfold final_count. destruct a as [|p|p]; simpl; try lia.
  induction p as [q IH|q IH|]; simpl;
    destruct (bound <? _) eqn:E; simpl; auto;
    apply Z.ltb_ge in E; lia.
Qed.

Lemma final_count_le bound a : 0 <= a -> 0 <= final_count bound a <= a.
Proof.
  intros Ha. unfold final_count. destruct a as [|p|p]; simpl; try lia.
  induction p as [q IH|q IH|]; simpl;
    destruct (bound <? _) eqn:E; simpl; lia.
Qed.
End RunFacts.

(** Invariants of the loops. *)
Lemma loop_invariant (S : Type) (P : S -> Prop) (round : Z -> S -> S) a st :
  (forall n st', 0 < n <= a -> P st' -> P (round n st')) ->
  P st -> P (loop S round a st).
Proof.
  destruct a as [|p|p]; simpl; auto. revert st.
  induction p as [q IH|q IH|]; intros st H Hst; simpl.
  - apply IH; [intros n st' Hn; apply H; lia | apply H; [lia | exact Hst]].
  - apply IH; [intros n st' Hn; apply H; lia | apply H; [lia | exact Hst]].
  - apply H; [lia | exact Hst].
Qed.

Lemma loop_related (S S' : Type) (R : S -> S' -> Prop)
    (round : Z -> S -> S) (round' : Z -> S' -> S') a st st' :
  (forall n x x', 0 < n <= a -> R x x' -> R (round n x) (round' n x')) ->
  R st st' -> R (loop S round a st) (loop S' round' a st').
Proof.
  destruct a as [|p|p]; simpl; auto. revert st st'.
  induction p as [q IH|q IH|]; intros st st' H Hst; simpl.
  - apply IH; [intros n x x' Hn; apply H; lia | apply H; [lia | exact Hst]].
  - apply IH; [intros n x x' Hn; apply H; lia | apply H; [lia | exact Hst]].
  - apply H; [lia | exact Hst].
Qed.

Lemma loop_above_invariant (S : Type) (P : S -> Prop) (round : Z -> S -> S)
    bound a st :
  (forall n st', 0 < n <= a -> P st' -> P (round n st')) ->
  P st -> P (loop_above S round bound a st).
Proof.
  destruct a as [|p|p]; simpl; auto. revert st.
  induction p as [q IH|q IH|]; intros st H Hst; simpl;
    destruct (bound <? _); auto.
  - apply IH; [intros n st' Hn; apply H; lia | apply H; [lia | exact Hst]].
  - apply IH; [intros n st' Hn; apply H; lia | apply H; [lia | exact Hst]].
  - apply H; [lia | exact Hst].
Qed.

(** ** Work-item coordinates *)

Lemma to_uint_small x : 0 <= x < uint_modulus -> to_uint x = x.
Proof. intros H. unfold to_uint. apply Z.mod_small. exact H. Qed.

Lemma to_uint_range x : 0 <= to_uint x < uint_modulus.
Proof. unfold to_uint. apply Z.mod_pos_bound. reflexivity. Qed.

Lemma uadd_small j n :
  0 <= j + n < uint_modulus -> uadd j n = j + n.
Proof. intros H. unfold uadd. apply to_uint_small. exact H. Qed.

Lemma ushr1_div2 x : ushr1 x = x / 2.
Proof. unfold ushr1. rewrite Z.shiftr_div_pow2 by lia. reflexivity. Qed.

Lemma in_ids n i : In i (ids n) <-> 0 <= i < n.
Proof.
  unfold ids. rewrite in_map_iff. split.
  - intros [x [<- Hx]]. apply in_seq in Hx. lia.
  - intros H. exists (Z.to_nat i). split; [lia|]. apply in_seq. lia.
Qed.

Lemma ids_nonempty n : 0 < n -> ids n <> [].
Proof.
  intros H E. assert (Hi : In 0 (ids n)) by (apply in_ids; lia).
  rewrite E in Hi. destruct Hi.
Qed.

Lemma ids_succ n : 0 <= n -> ids (n + 1) = ids n ++ [n].
Proof.
  intros H. unfold ids.
  replace (Z.to_nat (n + 1)) with (S (Z.to_nat n)) by lia.
  rewrite seq_S, map_app. simpl. rewrite Z2Nat.id by lia. reflexivity.
Qed.

Lemma ids_head n :
  0 < n -> exists l, ids n = 0 :: l /\ forall i, In i l -> 0 < i < n.
Proof.
  intros H. unfold ids.
  destruct (Z.to_nat n) as [|m] eqn:E; [lia|].
  simpl. eexists. split; [reflexivity|].
  intros i Hi. apply in_map_iff in Hi. destruct Hi as [x [<- Hx]].
  apply in_seq in Hx. lia.
Qed.

Lemma flat_map_nil {A B} (f : A -> list B) l :
  (forall x, In x l -> f x = []) -> flat_map f l = [].
Proof.
  induction l as [|a l IH]; intros H; simpl; auto.
  rewrite (H a (or_introl eq_refl)), IH; auto.
  intros x Hx. apply H. right. exact Hx.
Qed.

(** ** One group of a dispatch *)

Section OneGroup.
Variable V : Type.
Variable add : V -> V -> V.
Variable input : Z -> V.
Variables localSize simdWidth groupId inputLength : Z.

Definition item (i : Z) : workitem :=
  WorkItem i groupId localSize simdWidth.

(** The statements of work-item [i]. *)
Definition load_of (i : Z) : event :=
  if to_uint (get_global_id (item i)) <? inputLength
  then Load (to_uint (get_global_id (item i))) (to_uint i)
  else Masked.

Definition fenced_of (i n : Z) : event :=
  if (to_uint i <? n)
     && (uadd (to_uint (get_global_id (item i))) n <? inputLength)
  then Accumulate n (uadd (to_uint i) n) (to_uint i)
  else Masked.

Definition unfenced_of (i n : Z) : event :=
  if uadd (to_uint (get_global_id (item i))) n <? inputLength
  then Accumulate n (uadd (to_uint i) n) (to_uint i)
  else Masked.

Definition store_of (i : Z) : event :=
  if to_uint i =? 0 then Store groupId else Masked.

Definition first_count : Z := to_uint (ushr1 localSize).

(** [reduceHybrid]: the work-items from [simdWidth] on return after the
    fenced loop. *)
Definition returned (i : Z) : bool := to_uint simdWidth <=? to_uint i.

Lemma reduceBarrier_shape i :
  reduceBarrier (item i) inputLength =
  load_of i :: Fence ::
  while_positive (fun n => [fenced_of i n; Fence]) first_count
  ++ [store_of i].
Proof. reflexivity. Qed.

Lemma reduceSimd_shape i :
  reduceSimd (item i) inputLength =
  load_of i ::
  while_positive (fun n => [unfenced_of i n]) first_count
  ++ [Store groupId].
Proof. reflexivity. Qed.

Lemma reduceHybrid_shape i :
  reduceHybrid (item i) inputLength =
  load_of i :: Fence ::
  fst (while_above (fun n => [fenced_of i n; Fence]) (to_uint simdWidth)
         first_count)
  ++ (if to_uint simdWidth <=? to_uint i then []
      else
        while_positive (fun n => [unfenced_of i n])
          (snd (while_above (fun n => [fenced_of i n; Fence])
                  (to_uint simdWidth) first_count))
        ++ [store_of i]).
Proof. reflexivity. Qed.

(** The local memory of the group after the loads, and after the loops. *)
Definition loaded (m : mem V) : mem V :=
  step_mem add input (ids localSize) (fun i => Some (load_of i)) m.

Definition fenced_rounds (a : Z) (m : mem V) : mem V :=
  loop _
    (fun n => step_mem add input (ids localSize)
                (fun i => Some (fenced_of i n)))
    a m.

Definition unfenced_rounds (a : Z) (m : mem V) : mem V :=
  loop _
    (fun n => step_mem add input (ids localSize)
                (fun i => Some (unfenced_of i n)))
    a m.

Definition fenced_rounds_above (a : Z) (m : mem V) : mem V :=
  loop_above _
    (fun n => step_mem add input (ids localSize)
                (fun i => Some (fenced_of i n)))
    (to_uint simdWidth) a m.

Definition surviving_rounds (a : Z) (m : mem V) : mem V :=
  loop _
    (fun n => step_mem add input (ids localSize)
                (fun i => if returned i then None
                          else Some (unfenced_of i n)))
    a m.

Definition hybrid_rounds (m : mem V) : mem V :=
  surviving_rounds (final_count (to_uint simdWidth) first_count)
    (fenced_rounds_above first_count m).

Lemma storeless_load : storeless (ids localSize) (fun i => Some (load_of i)).
Proof. intros i _. unfold load_of. destruct (_ <? _); exact I. Qed.

Lemma storeless_fenced n :
  storeless (ids localSize) (fun i => Some (fenced_of i n)).
Proof. intros i _. unfold fenced_of. destruct (_ && _); exact I. Qed.

Lemma storeless_unfenced n :
  storeless (ids localSize) (fun i => Some (unfenced_of i n)).
Proof. intros i _. unfold unfenced_of. destruct (_ <? _); exact I. Qed.

Lemma silent_store :
  silent (ids localSize) (fun i => Some (store_of i)).
Proof. intros i _. unfold store_of. destruct (_ =? _); exact I. Qed.

Lemma loop_storeless (cur : Z -> Z -> option event) a (m : mem V) log :
  (forall n, storeless (ids localSize) (cur n)) ->
  loop _ (fun n => step add input (ids localSize) (cur n)) a (m, log) =
  (loop _ (fun n => step_mem add input (ids localSize) (cur n)) a m, log).
Proof.
  intros H. destruct a as [|p|p]; try reflexivity. simpl. revert m.
  induction p as [q IH|q IH|]; intros m; simpl;
    rewrite step_storeless by apply H; auto.
Qed.

Hypothesis size_pos : 0 < localSize.
Hypothesis size_uint : localSize <= uint_modulus.

Lemma local_id_uint i : In i (ids localSize) -> to_uint i = i.
Proof. intros H. apply in_ids in H. apply to_uint_small. lia. Qed.

Lemma step_log_store_of (m : mem V) :
  step_log (ids localSize) (fun i => Some (store_of i)) m =
  [(0, groupId, m 0)].
Proof.
  unfold step_log. destruct (ids_head localSize size_pos) as [l [-> Hl]].
  simpl. rewrite flat_map_nil; [reflexivity|].
  intros i Hi. specialize (Hl i Hi). unfold store_of.
  rewrite to_uint_small by lia.
  destruct (i =? 0) eqn:E; [apply Z.eqb_eq in E; lia | reflexivity].
Qed.

Lemma step_log_store_all (m : mem V) :
  step_log (ids localSize) (fun _ => Some (Store groupId)) m =
  map (fun i => (i, groupId, m 0)) (ids localSize).
Proof.
  unfold step_log.
  induction (ids localSize) as [|a l IH]; simpl; [reflexivity|].
  now f_equal.
Qed.

(** *** The memory after a position, slot by slot *)

Lemma own_load : own_slot (ids localSize) (fun i => Some (load_of i)).
Proof.
  intros i Hi. unfold load_of. destruct (_ <? _); [|exact I].
  apply local_id_uint. exact Hi.
Qed.

Lemma own_fenced n :
  own_slot (ids localSize) (fun i => Some (fenced_of i n)).
Proof.
  intros i Hi. unfold fenced_of. destruct (_ && _); [|exact I].
  apply local_id_uint. exact Hi.
Qed.

Lemma own_surviving n :
  own_slot (ids localSize)
    (fun i => if returned i then None else Some (unfenced_of i n)).
Proof.
  intros i Hi. destruct (returned i); [exact I|].
  unfold unfenced_of. destruct (_ <? _); [|exact I].
  apply local_id_uint. exact Hi.
Qed.

Lemma own_unfenced n :
  own_slot (ids localSize) (fun i => Some (unfenced_of i n)).
Proof.
  intros i Hi. unfold unfenced_of. destruct (_ <? _); [|exact I].
  apply local_id_uint. exact Hi.
Qed.

Lemma loaded_at m j :
  0 <= j < localSize ->
  loaded m j =
  if to_uint (get_global_id (item j)) <? inputLength
  then input (to_uint (get_global_id (item j)))
  else m j.
Proof.
  intros Hj. unfold loaded.
  rewrite step_mem_own by (apply own_load || (apply in_ids; exact Hj)).
  unfold load_of. destruct (_ <? _); reflexivity.
Qed.

Lemma fenced_at n m j :
  0 <= j < localSize ->
  step_mem add input (ids localSize) (fun i => Some (fenced_of i n)) m j =
  if (j <? n) && (uadd (to_uint (get_global_id (item j))) n <? inputLength)
  then add (m j) (m (uadd j n))
  else m j.
Proof.
  intros Hj.
  rewrite step_mem_own by (apply own_fenced || (apply in_ids; exact Hj)).
  unfold fenced_of. rewrite (to_uint_small j) by lia.
  destruct (_ && _); reflexivity.
Qed.

Lemma unfenced_at n m j :
  0 <= j < localSize ->
  step_mem add input (ids localSize) (fun i => Some (unfenced_of i n)) m j =
  if uadd (to_uint (get_global_id (item j))) n <? inputLength
  then add (m j) (m (uadd j n))
  else m j.
Proof.
  intros Hj.
  rewrite step_mem_own by (apply own_unfenced || (apply in_ids; exact Hj)).
  unfold unfenced_of. rewrite (to_uint_small j) by lia.
  destruct (_ <? _); reflexivity.
Qed.

Lemma surviving_at n m j :
  0 <= j < localSize ->
  step_mem add input (ids localSize)
    (fun i => if returned i then None else Some (unfenced_of i n)) m j =
  if negb (to_uint simdWidth <=? j)
     && (uadd (to_uint (get_global_id (item j))) n <? inputLength)
  then add (m j) (m (uadd j n))
  else m j.
Proof.
  intros Hj.
  rewrite step_mem_own by (apply own_surviving || (apply in_ids; exact Hj)).
  unfold returned, unfenced_of. rewrite (to_uint_small j) by lia.
  destruct (_ <=? _); simpl; [reflexivity|].
  destruct (_ <? _); reflexivity.
Qed.

Lemma first_count_half : first_count = localSize / 2.
Proof.
  unfold first_count. rewrite ushr1_div2. apply to_uint_small.
  split; [apply Z.div_pos; lia|].
  apply Z.div_lt_upper_bound; lia.
Qed.

(** Between two barriers of a fenced loop no work-item reads a slot that a
    work-item of the group writes: the order in which the work-items run
    between the barriers does not matter, whatever the sub-group width. *)
Lemma fenced_round_race_free n i j c s d c' s' d' :
  0 < n <= first_count ->
  0 <= i < localSize -> 0 <= j < localSize ->
  fenced_of i n = Accumulate c s d ->
  fenced_of j n = Accumulate c' s' d' ->
  s <> d'.
Proof.
  intros Hn Hi Hj. rewrite first_count_half in Hn.
  pose proof (Z.mul_div_le localSize 2 ltac:(lia)) as Hh.
  unfold fenced_of.
  rewrite (to_uint_small i), (to_uint_small j) by lia.
  destruct (i <? n) eqn:Ei; simpl; [|discriminate].
  destruct (j <? n) eqn:Ej; simpl; [|destruct (_ <? _); discriminate].
  apply Z.ltb_lt in Ei. apply Z.ltb_lt in Ej.
  destruct (uadd _ n <? _); [|discriminate].
  destruct (uadd _ n <? _); [|discriminate].
  intros H H'. inversion H. inversion H'. subst.
  rewrite uadd_small by lia. lia.
Qed.

(** *** The three loops leave the same value in slot 0

    The work-items below [activeThreadCount] do the same in the three
    loops, and the slots below [2 * activeThreadCount] are all they read
    and write; what the other work-items of the unfenced loops do never
    reaches slot 0. *)

Definition agree_below (b : Z) (m1 m2 : mem V) : Prop :=
  forall j, 0 <= j < b -> m1 j = m2 j.

Lemma round_fenced_unfenced n m1 m2 :
  0 < n -> 2 * n <= localSize -> agree_below (2 * n) m1 m2 ->
  agree_below n
    (step_mem add input (ids localSize) (fun i => Some (fenced_of i n)) m1)
    (step_mem add input (ids localSize) (fun i => Some (unfenced_of i n)) m2).
Proof.
  intros Hn Hs H j Hj.
  rewrite fenced_at, unfenced_at by lia.
  replace (j <? n) with true by (symmetry; apply Z.ltb_lt; lia). simpl.
  rewrite (uadd_small j n) by lia.
  rewrite (H j), (H (j + n)) by lia. reflexivity.
Qed.

Lemma round_fenced_surviving n m1 m2 :
  0 < n -> 2 * n <= localSize -> n <= to_uint simdWidth ->
  agree_below (2 * n) m1 m2 ->
  agree_below n
    (step_mem add input (ids localSize) (fun i => Some (fenced_of i n)) m1)
    (step_mem add input (ids localSize)
       (fun i => if returned i then None else Some (unfenced_of i n)) m2).
Proof.
  intros Hn Hs Hw H j Hj.
  rewrite fenced_at, surviving_at by lia.
  replace (j <? n) with true by (symmetry; apply Z.ltb_lt; lia).
  replace (to_uint simdWidth <=? j) with false
    by (symmetry; apply Z.leb_gt; lia).
  simpl. rewrite (uadd_small j n) by lia.
  rewrite (H j), (H (j + n)) by lia. reflexivity.
Qed.

Lemma loops_fenced_unfenced a m1 m2 :
  2 * a <= localSize -> agree_below (Z.max 1 (2 * a)) m1 m2 ->
  fenced_rounds a m1 0 = unfenced_rounds a m2 0.
Proof.
  intros Hs H. unfold fenced_rounds, unfenced_rounds.
  destruct a as [|p|p]; simpl; try (apply H; lia).
  assert (H' : agree_below (2 * Z.pos p) m1 m2)
    by (intros j Hj; apply H; lia).
  clear H. revert m1 m2 Hs H'.
  induction p as [q IH|q IH|]; intros m1 m2 Hs H; simpl.
  - apply IH; [lia|]. intros j Hj.
    apply (round_fenced_unfenced (Z.pos q~1) m1 m2); auto; lia.
  - apply IH; [lia|]. intros j Hj.
    apply (round_fenced_unfenced (Z.pos q~0) m1 m2); auto; lia.
  - apply (round_fenced_unfenced 1 m1 m2); auto; lia.
Qed.

Lemma loops_fenced_surviving a m1 m2 :
  2 * a <= localSize -> a <= to_uint simdWidth ->
  agree_below (Z.max 1 (2 * a)) m1 m2 ->
  fenced_rounds a m1 0 = surviving_rounds a m2 0.
Proof.
  intros Hs Hw H. unfold fenced_rounds, surviving_rounds.
  destruct a as [|p|p]; simpl; try (apply H; lia).
  assert (H' : agree_below (2 * Z.pos p) m1 m2)
    by (intros j Hj; apply H; lia).
  clear H. revert m1 m2 Hs Hw H'.
  induction p as [q IH|q IH|]; intros m1 m2 Hs Hw H; simpl.
  - apply IH; [lia|lia|]. intros j Hj.
    apply (round_fenced_surviving (Z.pos q~1) m1 m2); auto; lia.
  - apply IH; [lia|lia|]. intros j Hj.
    apply (round_fenced_surviving (Z.pos q~0) m1 m2); auto; lia.
  - apply (round_fenced_surviving 1 m1 m2); auto; lia.
Qed.

Lemma barrier_simd_slot0 m :
  fenced_rounds first_count m 0 = unfenced_rounds first_count m 0.
Proof.
  apply loops_fenced_unfenced; [|intros j _; reflexivity].
  rewrite first_count_half.
  pose proof (Z.mul_div_le localSize 2). lia.
Qed.

Lemma barrier_hybrid_slot0 m :
  fenced_rounds first_count m 0 = hybrid_rounds m 0.
Proof.
  unfold hybrid_rounds, fenced_rounds at 1.
  rewrite (loop_split _ _ (to_uint simdWidth) first_count).
  pose proof (to_uint_range simdWidth) as Hw.
  assert (Hc : 0 <= first_count)
    by (unfold first_count; apply to_uint_range).
  pose proof (final_count_le (to_uint simdWidth) first_count Hc) as Hf.
  pose proof (final_count_bound (to_uint simdWidth) first_count) as Hb.
  apply loops_fenced_surviving; [| lia | intros j _; reflexivity].
  pose proof first_count_half as Eh.
  pose proof (Z.mul_div_le localSize 2). lia.
Qed.

(** The three kernels, run by one group. *)
Lemma run_reduceBarrier m0 :
  run_group add input (ids localSize)
    (fun i => reduceBarrier (item i) inputLength) m0 =
  (fenced_rounds first_count (loaded m0),
   [(0, groupId, fenced_rounds first_count (loaded m0) 0)]).
Proof.
  pose proof (ids_nonempty localSize size_pos) as Hne.
  rewrite run_group_run_all.
  rewrite (run_all_ext _ _ _ _ _ _ _ (fun i _ => reduceBarrier_shape i)).
  rewrite !run_all_cons by assumption.
  rewrite step_fence, run_all_fenced_loop by assumption.
  rewrite run_all_cons by assumption.
  rewrite run_all_nil by reflexivity.
  rewrite step_storeless by apply storeless_load.
  rewrite (loop_storeless (fun n i => Some (fenced_of i n)))
    by apply storeless_fenced.
  unfold step. simpl.
  rewrite step_mem_silent by apply silent_store.
  rewrite step_log_store_of. reflexivity.
Qed.

Lemma run_reduceSimd m0 :
  run_group add input (ids localSize)
    (fun i => reduceSimd (item i) inputLength) m0 =
  (unfenced_rounds first_count (loaded m0),
   map (fun i => (i, groupId, unfenced_rounds first_count (loaded m0) 0))
     (ids localSize)).
Proof.
  pose proof (ids_nonempty localSize size_pos) as Hne.
  rewrite run_group_run_all.
  rewrite (run_all_ext _ _ _ _ _ _ _ (fun i _ => reduceSimd_shape i)).
  rewrite !run_all_cons by assumption.
  rewrite run_all_unfenced_loop by assumption.
  rewrite run_all_cons by assumption.
  rewrite run_all_nil by reflexivity.
  rewrite step_storeless by apply storeless_load.
  rewrite (loop_storeless (fun n i => Some (unfenced_of i n)))
    by apply storeless_unfenced.
  unfold step. simpl.
  rewrite step_mem_silent by (intros i _; exact I).
  rewrite step_log_store_all. reflexivity.
Qed.
Lemma loop_above_storeless (cur : Z -> Z -> option event) bound a
    (m : mem V) log :
  (forall n, storeless (ids localSize) (cur n)) ->
  loop_above _ (fun n => step add input (ids localSize) (cur n)) bound a
    (m, log) =
  (loop_above _ (fun n => step_mem add input (ids localSize) (cur n))
     bound a m, log).
Proof.
  intros H. destruct a as [|p|p]; try reflexivity. simpl. revert m.
  induction p as [q IH|q IH|]; intros m; simpl;
    destruct (bound <? _); auto;
    rewrite step_storeless by apply H; auto.
Qed.

Lemma storeless_surviving n :
  storeless (ids localSize)
    (fun i => if returned i then None else Some (unfenced_of i n)).
Proof.
  intros i _. destruct (returned i); [exact I|].
  unfold unfenced_of. destruct (_ <? _); exact I.
Qed.

Hypothesis width_pos : 0 < to_uint simdWidth.

Lemma first_survives : returned 0 = false.
Proof.
  unfold returned. rewrite (to_uint_small 0) by (unfold uint_modulus; lia).
  apply Z.leb_gt. exact width_pos.
Qed.

Lemma step_log_store_surviving (m : mem V) :
  step_log (ids localSize)
    (fun i => if returned i then None else Some (store_of i)) m =
  [(0, groupId, m 0)].
Proof.
  unfold step_log. destruct (ids_head localSize size_pos) as [l [-> Hl]].
  simpl. rewrite first_survives. simpl.
  rewrite flat_map_nil; [reflexivity|].
  intros i Hi. specialize (Hl i Hi).
  destruct (returned i); [reflexivity|]. unfold store_of.
  rewrite to_uint_small by lia.
  destruct (i =? 0) eqn:E; [apply Z.eqb_eq in E; lia | reflexivity].
Qed.

Lemma run_reduceHybrid m0 :
  run_group add input (ids localSize)
    (fun i => reduceHybrid (item i) inputLength) m0 =
  (hybrid_rounds (loaded m0), [(0, groupId, hybrid_rounds (loaded m0) 0)]).
Proof.
  pose proof (ids_nonempty localSize size_pos) as Hne.
  assert (H0 : In 0 (ids localSize)) by (apply in_ids; lia).
  rewrite run_group_run_all.
  rewrite (run_all_ext _ _ _ _ _
             (fun i =>
                load_of i :: Fence ::
                fst (while_above (fun n => [fenced_of i n; Fence])
                       (to_uint simdWidth) first_count)
                ++ (if returned i then []
                    else
                      while_positive (fun n => [unfenced_of i n])
                        (final_count (to_uint simdWidth) first_count)
                      ++ [store_of i])));
    [|intros i _; rewrite reduceHybrid_shape, snd_while_above; reflexivity].
  rewrite !run_all_cons by assumption.
  rewrite step_fence, run_all_above_loop by assumption.
  rewrite (run_all_unfenced_loop_alive _ _ _ _ returned unfenced_of
             (fun i => [store_of i]) 0 H0 first_survives).
  rewrite (run_all_cons_alive _ _ _ _ returned store_of (fun _ => [])
             _ 0 H0 first_survives).
  rewrite run_all_nil by (intros i _; destruct (returned i); reflexivity).
  rewrite step_storeless by apply storeless_load.
  rewrite (loop_above_storeless (fun n i => Some (fenced_of i n)))
    by apply storeless_fenced.
  rewrite (loop_storeless
             (fun n i => if returned i then None
                         else Some (unfenced_of i n)))
    by apply storeless_surviving.
  unfold step. simpl.
  rewrite step_mem_silent.
  - rewrite step_log_store_surviving. reflexivity.
  - intros i _. destruct (returned i); [exact I|].
    unfold store_of. destruct (_ =? _); exact I.
Qed.
End OneGroup.

(** ** The output buffer of a dispatch *)

Section Output.
Variable V : Type.

Lemma replay_app (l1 l2 : list (write V)) r :
  replay (l1 ++ l2) r = replay l2 (replay l1 r).
Proof. unfold replay. apply fold_left_app. Qed.

Lemma replay_other (log : list (write V)) r j :
  (forall w, In w log -> slot_of w <> j) -> replay log r j = r j.
Proof.
  revert r. induction log as [|w log IH]; intros r H; simpl; auto.
  change (replay log (upd r (slot_of w) (value_of w)) j = r j).
  rewrite IH by (intros w' Hw'; apply H; right; exact Hw').
  simpl. specialize (H w (or_introl eq_refl)).
  destruct (j =? slot_of w) eqn:E; auto.
  apply Z.eqb_eq in E. congruence.
Qed.

Lemma replay_same (log : list (write V)) k v :
  (forall w, In w log -> slot_of w = k /\ value_of w = v) ->
  forall r, r k = v \/ log <> [] -> replay log r k = v.
Proof.
  induction log as [|w log IH]; intros H r Hr; simpl.
  - destruct Hr as [Hr|Hr]; [exact Hr | congruence].
  - change (replay log (upd r (slot_of w) (value_of w)) k = v).
    apply IH; [intros w' Hw'; apply H; right; exact Hw'|].
    left. destruct (H w (or_introl eq_refl)) as [-> ->].
    simpl. rewrite Z.eqb_refl. reflexivity.
Qed.

Lemma replay_groups (glog : Z -> list (write V)) (v : Z -> V) ks :
  (forall k, In k ks ->
     glog k <> [] /\
     forall w, In w (glog k) -> slot_of w = k /\ value_of w = v k) ->
  forall r j,
    replay (flat_map glog ks) r j = if in_dec Z.eq_dec j ks then v j else r j.
Proof.
  induction ks as [|k ks IH]; intros H r j; simpl; auto.
  rewrite replay_app.
  rewrite IH by (intros k' Hk'; apply H; right; exact Hk').
  destruct (H k (or_introl eq_refl)) as [Hne Hw].
  destruct (Z.eq_dec k j) as [->|Hkj].
  - destruct (in_dec Z.eq_dec j ks); [reflexivity|].
    apply (replay_same (glog j) j (v j) Hw). right. exact Hne.
  - destruct (in_dec Z.eq_dec j ks); [reflexivity|].
    apply replay_other. intros w Hin. destruct (Hw w Hin) as [-> _].
    exact Hkj.
Qed.
End Output.

Section Dispatch.
Variable V : Type.
Variable add : V -> V -> V.
Variable input : Z -> V.
Variables localSize simdWidth numGroups inputLength : Z.
Variable scratch : Z -> mem V.
Variable results : Z -> V.

Hypothesis size_pos : 0 < localSize.
Hypothesis size_uint : localSize <= uint_modulus.

Definition covers (j : Z) : bool :=
  if in_dec Z.eq_dec j (ids numGroups) then true else false.

Lemma covers_spec j : covers j = true <-> 0 <= j < numGroups.
Proof.
  unfold covers. destruct (in_dec Z.eq_dec j (ids numGroups)) as [H|H];
    rewrite in_ids in H; split; intros; auto; discriminate.
Qed.

Lemma dispatch_reduceBarrier_slot j :
  replay
    (dispatch add reduceBarrier localSize simdWidth numGroups input
       inputLength scratch) results j =
  if covers j
  then fenced_rounds V add input localSize simdWidth j inputLength
         (first_count localSize)
         (loaded V add input localSize simdWidth j inputLength (scratch j))
         0
  else results j.
Proof.
  unfold dispatch, covers.
  rewrite (replay_groups V _
             (fun k =>
                fenced_rounds V add input localSize simdWidth k inputLength
                  (first_count localSize)
                  (loaded V add input localSize simdWidth k inputLength
                     (scratch k)) 0)).
  - destruct (in_dec Z.eq_dec j (ids numGroups)); reflexivity.
  - intros k _.
    change (fun i => reduceBarrier (WorkItem i k localSize simdWidth)
                       inputLength)
      with (fun i => reduceBarrier (item localSize simdWidth k i)
                       inputLength).
    rewrite run_reduceBarrier by assumption. simpl.
    split; [discriminate|].
    intros w [<-|[]]. split; reflexivity.
Qed.

Lemma dispatch_reduceSimd_slot j :
  replay
    (dispatch add reduceSimd localSize simdWidth numGroups input
       inputLength scratch) results j =
  if covers j
  then unfenced_rounds V add input localSize simdWidth j inputLength
         (first_count localSize)
         (loaded V add input localSize simdWidth j inputLength (scratch j))
         0
  else results j.
Proof.
  unfold dispatch, covers.
  rewrite (replay_groups V _
             (fun k =>
                unfenced_rounds V add input localSize simdWidth k
                  inputLength (first_count localSize)
                  (loaded V add input localSize simdWidth k inputLength
                     (scratch k)) 0)).
  - destruct (in_dec Z.eq_dec j (ids numGroups)); reflexivity.
  - intros k _.
    change (fun i => reduceSimd (WorkItem i k localSize simdWidth)
                       inputLength)
      with (fun i => reduceSimd (item localSize simdWidth k i)
                       inputLength).
    rewrite run_reduceSimd by assumption. simpl.
    split.
    + intros E. apply map_eq_nil in E.
      exact (ids_nonempty localSize size_pos E).
    + intros w Hw. apply in_map_iff in Hw. destruct Hw as [i [<- _]].
      split; reflexivity.
Qed.

Hypothesis width_pos : 0 < to_uint simdWidth.

Lemma dispatch_reduceHybrid_slot j :
  replay
    (dispatch add reduceHybrid localSize simdWidth numGroups input
       inputLength scratch) results j =
  if covers j
  then hybrid_rounds V add input localSize simdWidth j inputLength
         (loaded V add input localSize simdWidth j inputLength (scratch j))
         0
  else results j.
Proof.
  unfold dispatch, covers.
  rewrite (replay_groups V _
             (fun k =>
                hybrid_rounds V add input localSize simdWidth k inputLength
                  (loaded V add input localSize simdWidth k inputLength
                     (scratch k)) 0)).
  - destruct (in_dec Z.eq_dec j (ids numGroups)); reflexivity.
  - intros k _.
    change (fun i => reduceHybrid (WorkItem i k localSize simdWidth)
                       inputLength)
      with (fun i => reduceHybrid (item localSize simdWidth k i)
                       inputLength).
    rewrite run_reduceHybrid by assumption. simpl.
    split; [discriminate|].
    intros w [<-|[]]. split; reflexivity.
Qed.
End Dispatch.

(** ** Sums with exact addition *)

Section ExactSum.
Variable V : Type.
Variable add : V -> V -> V.
Variable zero : V.

Hypothesis add_assoc : forall x y z, add x (add y z) = add (add x y) z.
Hypothesis add_comm : forall x y, add x y = add y x.
Hypothesis add_zero : forall x, add zero x = x.

(** [f 0 + f 1 + ... + f (n - 1)] *)
Fixpoint bigsum (f : nat -> V) (n : nat) : V :=
  match n with
  | O => zero
  | S n' => add (f O) (bigsum (fun q => f (S q)) n')
  end.

Lemma add_zero_r x : add x zero = x.
Proof. rewrite add_comm. apply add_zero. Qed.

Lemma total_app l1 l2 :
  total V add zero (l1 ++ l2) =
  add (total V add zero l1) (total V add zero l2).
Proof.
  induction l1 as [|x l1 IH]; simpl.
  - rewrite add_zero. reflexivity.
  - rewrite IH. apply add_assoc.
Qed.

Lemma bigsum_ext n : forall f g,
  (forall q, (q < n)%nat -> f q = g q) -> bigsum f n = bigsum g n.
Proof.
  induction n as [|n IH]; intros f g H; simpl; auto.
  rewrite (H O) by lia. f_equal.
  apply IH. intros q Hq. apply H. lia.
Qed.

Lemma bigsum_zero n : forall f,
  (forall q, (q < n)%nat -> f q = zero) -> bigsum f n = zero.
Proof.
  induction n as [|n IH]; intros f H; simpl; auto.
  rewrite (H O) by lia. rewrite add_zero.
  apply IH. intros q Hq. apply H. lia.
Qed.

Lemma add_swap a b c d : add (add a b) (add c d) = add (add a c) (add b d).
Proof.
  rewrite <- (add_assoc a b), (add_assoc b c), (add_comm b c).
  rewrite <- (add_assoc c b), (add_assoc a c). reflexivity.
Qed.

(** Even and odd positions. *)
Lemma bigsum_even_odd n : forall f,
  bigsum f (2 * n) =
  add (bigsum (fun q => f (2 * q)%nat) n)
      (bigsum (fun q => f (2 * q + 1)%nat) n).
Proof.
  induction n as [|n IH]; intros f.
  - simpl. rewrite add_zero. reflexivity.
  - replace (2 * S n)%nat with (S (S (2 * n))) by lia.
    cbn [bigsum]. rewrite IH.
    rewrite (bigsum_ext n (fun q => f (S (S (2 * q))))
               (fun q => f (2 * S q)%nat))
      by (intros q _; f_equal; lia).
    rewrite (bigsum_ext n (fun q => f (S (S (2 * q + 1))))
               (fun q => f (2 * S q + 1)%nat))
      by (intros q _; f_equal; lia).
    cbn [bigsum].
    change (2 * 0)%nat with 0%nat. change (0 + 1)%nat with 1%nat.
    rewrite (add_swap (f 0%nat) _ (f 1%nat) _).
    apply add_assoc.
Qed.

Lemma bigsum_list junk n : forall l,
  bigsum (fun q => if (q <? length l)%nat then nth q l junk else zero) n =
  total V add zero (firstn n l).
Proof.
  induction n as [|n IH]; intros l; simpl; auto.
  destruct l as [|x l]; simpl.
  - rewrite add_zero. apply bigsum_zero. intros q _. reflexivity.
  - f_equal. rewrite <- IH. apply bigsum_ext. intros q _. reflexivity.
Qed.

(** The values of a tile of the input that lie below [inputLength], the
    other positions counting for [zero]. *)
Definition term (input : Z -> V) (base inputLength : Z) (q : Z) : V :=
  if base + q <? inputLength then input (base + q) else zero.

(** [c] terms from [i] on, [w] apart. *)
Definition stride_sum (t : Z -> V) (c : nat) (w i : Z) : V :=
  bigsum (fun q => t (i + Z.of_nat q * w)) c.

Lemma stride_halve t c w i :
  stride_sum t (2 * c) w i =
  add (stride_sum t c (2 * w) i) (stride_sum t c (2 * w) (i + w)).
Proof.
  unfold stride_sum. rewrite bigsum_even_odd. f_equal;
    apply bigsum_ext; intros q _; f_equal; lia.
Qed.

Lemma term_tile (l : list V) junk (b : nat) (n : nat) :
  bigsum
    (fun q => term (buffer l junk) (Z.of_nat b) (Z.of_nat (length l))
                (Z.of_nat q)) n =
  total V add zero (firstn n (skipn b l)).
Proof.
  rewrite <- (bigsum_list junk).
  apply bigsum_ext. intros q _. unfold term. simpl.
  rewrite length_skipn, nth_skipn.
  replace (Z.to_nat (Z.of_nat b + Z.of_nat q)) with (b + q)%nat by lia.
  destruct (Z.of_nat b + Z.of_nat q <? Z.of_nat (length l)) eqn:E1;
    destruct (q <? length l - b)%nat eqn:E2; auto.
  - apply Z.ltb_lt in E1. apply Nat.ltb_ge in E2. lia.
  - apply Z.ltb_ge in E1. apply Nat.ltb_lt in E2. lia.
Qed.
End ExactSum.

(** ** What [reduceBarrier] leaves in slot 0 *)

Lemma pow2_succ e : pow2 (S e) = 2 * pow2 e.
Proof.
  unfold pow2. rewrite Nat2Z.inj_succ, Z.pow_succ_r by lia. reflexivity.
Qed.

Lemma pow2_pos e : 0 < pow2 e.
Proof. unfold pow2. apply Z.pow_pos_nonneg; lia. Qed.

Lemma pow2_to_nat e : Z.to_nat (pow2 e) = (2 ^ e)%nat.
Proof.
  induction e as [|e IH]; [reflexivity|].
  rewrite pow2_succ, Nat.pow_succ_r'. pose proof (pow2_pos e). lia.
Qed.

Lemma ushr1_pow2 e : ushr1 (pow2 (S e)) = pow2 e.
Proof.
  rewrite ushr1_div2, pow2_succ, Z.mul_comm. apply Z.div_mul. lia.
Qed.

Section BarrierSum.
Variable V : Type.
Variable add : V -> V -> V.
Variable zero : V.
Hypothesis add_assoc : forall x y z, add x (add y z) = add (add x y) z.
Hypothesis add_comm : forall x y, add x y = add y x.
Hypothesis add_zero : forall x, add zero x = x.

Variable input : Z -> V.
Variables localSize simdWidth groupId inputLength : Z.

Hypothesis size_pos : 0 < localSize.
Hypothesis group_nonneg : 0 <= groupId.
Hypothesis ids_fit : (groupId + 1) * localSize <= uint_modulus.

Let base : Z := groupId * localSize.
Let t : Z -> V := term V zero input base inputLength.

Lemma size_fits : localSize <= uint_modulus.
Proof. nia. Qed.

Lemma global_index j :
  0 <= j < localSize ->
  to_uint (get_global_id (item localSize simdWidth groupId j)) = base + j.
Proof.
  intros Hj. unfold get_global_id. simpl. apply to_uint_small.
  unfold base. nia.
Qed.

(** Slot [j] holds the terms of the tile at the positions [j], [j + w],
    [j + 2 w], ... when [w = 2 ^ e] slots are still to be combined. *)
Definition partial_sums (e d : nat) (m : mem V) : Prop :=
  forall j, 0 <= j < pow2 e -> base + j < inputLength ->
    m j = stride_sum V add zero t (2 ^ d) (pow2 e) j.

Lemma partial_sums_loaded e m0 :
  localSize = pow2 e ->
  partial_sums e 0
    (loaded V add input localSize simdWidth groupId inputLength m0).
Proof.
  intros HG j Hj Hin.
  rewrite loaded_at by (try apply size_fits; lia).
  rewrite global_index by lia.
  replace (base + j <? inputLength) with true
    by (symmetry; apply Z.ltb_lt; exact Hin).
  unfold stride_sum. simpl. rewrite (add_zero_r V add zero) by assumption.
  unfold t, term. rewrite Z.add_0_r.
  replace (base + j <? inputLength) with true
    by (symmetry; apply Z.ltb_lt; exact Hin).
  reflexivity.
Qed.

Lemma partial_sums_round e d m :
  pow2 (S e) <= localSize ->
  partial_sums (S e) d m ->
  partial_sums e (S d)
    (step_mem add input (ids localSize)
       (fun i =>
          Some (fenced_of localSize simdWidth groupId inputLength i
                  (pow2 e))) m).
Proof.
  intros Hle H j Hj Hin.
  pose proof (pow2_pos e) as Hp. rewrite pow2_succ in Hle.
  rewrite fenced_at by (try apply size_fits; lia).
  rewrite global_index by lia.
  replace (j <? pow2 e) with true by (symmetry; apply Z.ltb_lt; lia).
  rewrite (uadd_small (base + j)) by (unfold base in *; nia).
  rewrite (uadd_small j) by (pose proof size_fits; lia).
  rewrite Nat.pow_succ_r', stride_halve by assumption.
  rewrite <- pow2_succ. simpl andb.
  rewrite <- (H j) by (rewrite ?pow2_succ; lia).
  destruct (base + j + pow2 e <? inputLength) eqn:E.
  - apply Z.ltb_lt in E.
    rewrite <- (H (j + pow2 e)) by (rewrite ?pow2_succ; lia).
    reflexivity.
  - apply Z.ltb_ge in E.
    unfold stride_sum at 1. rewrite bigsum_zero;
      [symmetry; apply add_zero_r; assumption | assumption |].
    intros q _. unfold t, term.
    replace (base + (j + pow2 e + Z.of_nat q * pow2 (S e)) <? inputLength)
      with false; [reflexivity|].
    symmetry. apply Z.ltb_ge. pose proof (pow2_pos (S e)). nia.
Qed.

Lemma partial_sums_loop e : forall d m,
  pow2 (S e) <= localSize ->
  partial_sums (S e) d m ->
  partial_sums 0 (d + S e)
    (fenced_rounds V add input localSize simdWidth groupId inputLength
       (pow2 e) m).
Proof.
  induction e as [|e IH]; intros d m Hle H.
  - replace (d + 1)%nat with (S d) by lia.
    apply (partial_sums_round 0 d m Hle H).
  - unfold fenced_rounds. rewrite loop_unfold.
    replace (0 <? pow2 (S e)) with true
      by (symmetry; apply Z.ltb_lt; apply pow2_pos).
    rewrite ushr1_pow2.
    replace (d + S (S e))%nat with (S d + S e)%nat by lia.
    apply IH; [rewrite pow2_succ in Hle; pose proof (pow2_pos (S e)); lia|].
    apply partial_sums_round; assumption.
Qed.

(** Slot 0 after the loop of [reduceBarrier]: the sum of the elements of
    the tile below [inputLength]. *)
Lemma barrier_slot0 e m0 :
  localSize = pow2 e -> base < inputLength ->
  fenced_rounds V add input localSize simdWidth groupId inputLength
    (first_count localSize)
    (loaded V add input localSize simdWidth groupId inputLength m0) 0 =
  bigsum V add zero (fun q => t (Z.of_nat q)) (Z.to_nat localSize).
Proof.
  intros HG Hin.
  assert (H : partial_sums 0 e
                (fenced_rounds V add input localSize simdWidth groupId
                   inputLength (first_count localSize)
                   (loaded V add input localSize simdWidth groupId
                      inputLength m0))).
  { rewrite first_count_half by (try apply size_fits; lia).
    pose proof (partial_sums_loaded e m0 HG) as Hl.
    destruct e as [|e].
    - replace (localSize / 2) with 0 by (rewrite HG; reflexivity).
      exact Hl.
    - replace (localSize / 2) with (pow2 e)
        by (rewrite HG, <- ushr1_div2, ushr1_pow2; reflexivity).
      apply (partial_sums_loop e 0 _); [lia | exact Hl]. }
  rewrite (H 0) by (unfold pow2; simpl; lia).
  unfold stride_sum. rewrite HG, pow2_to_nat.
  apply bigsum_ext. intros q _. f_equal. unfold pow2. simpl. lia.
Qed.
End BarrierSum.

(** ** The tiles of the input *)

Section Tiles.
Variable V : Type.
Variable add : V -> V -> V.
Variable zero : V.
Hypothesis add_assoc : forall x y z, add x (add y z) = add (add x y) z.
Hypothesis add_comm : forall x y, add x y = add y x.
Hypothesis add_zero : forall x, add zero x = x.

Lemma firstn_add (a b : nat) : forall l : list V,
  firstn (a + b) l = firstn a l ++ firstn b (skipn a l).
Proof.
  induction a as [|a IH]; intros l; simpl; auto.
  destruct l as [|x l]; simpl.
  - rewrite firstn_nil. reflexivity.
  - rewrite IH. reflexivity.
Qed.

(** The sums of the first [n] tiles add up to the sum of what they
    cover. *)
Lemma total_tiles (l : list V) localSize (n : nat) :
  0 <= localSize ->
  total V add zero
    (map (fun k => total V add zero (tile l localSize k))
       (ids (Z.of_nat n))) =
  total V add zero (firstn (n * Z.to_nat localSize) l).
Proof.
  intros Hs. induction n as [|n IH]; [reflexivity|].
  replace (Z.of_nat (S n)) with (Z.of_nat n + 1) by lia.
  rewrite ids_succ, map_app by lia.
  rewrite (total_app V add zero) by assumption.
  rewrite IH. simpl map. unfold total at 2. simpl fold_right.
  rewrite (add_zero_r V add zero) by assumption.
  replace (S n * Z.to_nat localSize)%nat
    with (n * Z.to_nat localSize + Z.to_nat localSize)%nat by lia.
  rewrite firstn_add, (total_app V add zero) by assumption.
  unfold tile.
  replace (Z.to_nat (Z.of_nat n * localSize))
    with (n * Z.to_nat localSize)%nat by nia.
  reflexivity.
Qed.

Variables localSize simdWidth numGroups inputLength : Z.
Variable scratch : Z -> mem V.
Variable results : Z -> V.
Variable l : list V.
Variable junk : V.
Variable e : nat.

Hypothesis size_pow2 : localSize = pow2 e.
Hypothesis length_fits : 0 <= inputLength <= Z.of_nat (length l).

(** Slot [groupId] after a dispatch of [reduceBarrier], for a group that
    has an element of the input. *)
Lemma reduceBarrier_slot groupId :
  0 <= groupId < numGroups ->
  (groupId + 1) * localSize <= uint_modulus ->
  groupId * localSize < inputLength ->
  replay
    (dispatch add reduceBarrier localSize simdWidth numGroups
       (buffer l junk) inputLength scratch) results groupId =
  total V add zero (tile (firstn (Z.to_nat inputLength) l) localSize groupId).
Proof.
  intros Hk Hfit Hin.
  pose proof (pow2_pos e) as Hpos. rewrite <- size_pow2 in Hpos.
  rewrite dispatch_reduceBarrier_slot by (try assumption; nia).
  replace (covers numGroups groupId) with true
    by (symmetry; apply covers_spec; exact Hk).
  rewrite (barrier_slot0 V add zero add_assoc add_comm add_zero _ _ _ _ _
             Hpos (proj1 Hk) Hfit e _ size_pow2 Hin).
  unfold tile.
  rewrite <- (term_tile V add zero add_zero _ junk).
  apply bigsum_ext. intros q Hq. unfold term.
  rewrite length_firstn.
  replace (Z.of_nat (Nat.min (Z.to_nat inputLength) (length l)))
    with inputLength by lia.
  replace (Z.of_nat (Z.to_nat (groupId * localSize)))
    with (groupId * localSize) by nia.
  destruct (groupId * localSize + Z.of_nat q <? inputLength) eqn:E;
    [|reflexivity].
  apply Z.ltb_lt in E. simpl. rewrite nth_firstn.
  replace (_ <? _)%nat with true; [reflexivity|].
  symmetry. apply Nat.ltb_lt. nia.
Qed.
End Tiles.

(** ** One pass of [reduceBarrier] *)

Section BarrierPass.
Variable V : Type.
Variable add : V -> V -> V.
Variable zero : V.
Hypothesis add_assoc : forall x y z, add x (add y z) = add (add x y) z.
Hypothesis add_comm : forall x y, add x y = add y x.
Hypothesis add_zero : forall x, add zero x = x.

Variables simdWidth numGroups : Z.
Variable scratch : Z -> mem V.
Variable results : Z -> V.
Variable l : list V.
Variable junk : V.
Variable e : nat.

Hypothesis ids_fit : numGroups * pow2 e <= uint_modulus.
Hypothesis groups_needed : (numGroups - 1) * pow2 e < Z.of_nat (length l).

(** What the host reads back when it launches no more groups than the input
    needs. *)
Lemma reduceBarrier_read_back :
  read_back numGroups
    (replay
       (dispatch add reduceBarrier (pow2 e) simdWidth numGroups
          (buffer l junk) (Z.of_nat (length l)) scratch) results) =
  map (fun k => total V add zero (tile l (pow2 e) k)) (ids numGroups).
Proof.
  unfold read_back. apply map_ext_in. intros k Hk. apply in_ids in Hk.
  pose proof (pow2_pos e) as Hp.
  rewrite (reduceBarrier_slot V add zero add_assoc add_comm add_zero
             (pow2 e) simdWidth numGroups (Z.of_nat (length l)) scratch
             results l junk e eq_refl) by nia.
  rewrite Nat2Z.id, firstn_all. reflexivity.
Qed.

Hypothesis groups_cover : Z.of_nat (length l) <= numGroups * pow2 e.

Lemma reduceBarrier_pass_total :
  total V add zero
    (read_back numGroups
       (replay
          (dispatch add reduceBarrier (pow2 e) simdWidth numGroups
             (buffer l junk) (Z.of_nat (length l)) scratch) results)) =
  total V add zero l.
Proof.
  pose proof (pow2_pos e) as Hp.
  rewrite reduceBarrier_read_back.
  assert (Hn : 0 <= numGroups) by nia.
  rewrite <- (Z2Nat.id numGroups Hn).
  rewrite (total_tiles V add zero add_assoc add_comm add_zero) by lia.
  rewrite firstn_all2 by nia. reflexivity.
Qed.
End BarrierPass.

Lemma read_back_one {V : Type} (r : Z -> V) : read_back 1 r = [r 0].
Proof. reflexivity. Qed.

(** C1, as the specification states it, fails for a group size that is not
    a power of two: one group of 6 work-items over [1,2,3,4,5,6] leaves
    12 in its slot, the elements at positions 2 and 5 are never added. *)
Lemma reduceBarrier_group_of_six :
  read_back 1
    (replay
       (dispatch Z.add reduceBarrier 6 32 1 (buffer [1;2;3;4;5;6] 0) 6
          (fun _ _ => 0)) (fun _ => 0)) = [12]
  /\ read_back 1
       (replay
          (dispatch Z.add reduceBarrier 6 32 1 (buffer [1;2;3;4;5;6] 0) 6
             (fun _ _ => 0)) (fun _ => 0)) <>
     [total Z Z.add 0 (tile [1;2;3;4;5;6] 6 0)].
Proof. split; vm_compute; [reflexivity | discriminate]. Qed.

(** C1 (amended): with exact addition, for a group size that is a power of
    two and global ids that fit [uint], every group whose tile holds at
    least one element of the input leaves in its output slot the sum of the
    elements of its tile, whatever the local memory held before; one group
    of 8 work-items over [1,2,3,4,5,6,7,8] yields [36]. *)
Theorem reduceBarrier_tile_sum :
  (forall (V : Type) (add : V -> V -> V) (zero : V) (l : list V) (junk : V)
          (e : nat) (simdWidth numGroups groupId : Z)
          (scratch : Z -> mem V) (results : Z -> V),
      (forall x y z, add x (add y z) = add (add x y) z) ->
      (forall x y, add x y = add y x) ->
      (forall x, add zero x = x) ->
      0 <= groupId < numGroups ->
      (groupId + 1) * pow2 e <= uint_modulus ->
      groupId * pow2 e < Z.of_nat (length l) ->
      replay
        (dispatch add reduceBarrier (pow2 e) simdWidth numGroups
           (buffer l junk) (Z.of_nat (length l)) scratch) results groupId =
      total V add zero (tile l (pow2 e) groupId))
  /\
  (forall (simdWidth junk : Z) (scratch : Z -> mem Z) (results : Z -> Z),
      read_back 1
        (replay
           (dispatch Z.add reduceBarrier 8 simdWidth 1
              (buffer [1;2;3;4;5;6;7;8] junk) 8 scratch) results) = [36]).
Proof.
  assert (H : forall (V : Type) (add : V -> V -> V) (zero : V) (l : list V)
                (junk : V) (e : nat) (simdWidth numGroups groupId : Z)
                (scratch : Z -> mem V) (results : Z -> V),
             (forall x y z, add x (add y z) = add (add x y) z) ->
             (forall x y, add x y = add y x) ->
             (forall x, add zero x = x) ->
             0 <= groupId < numGroups ->
             (groupId + 1) * pow2 e <= uint_modulus ->
             groupId * pow2 e < Z.of_nat (length l) ->
             replay
               (dispatch add reduceBarrier (pow2 e) simdWidth numGroups
                  (buffer l junk) (Z.of_nat (length l)) scratch) results
               groupId =
             total V add zero (tile l (pow2 e) groupId)).
  { intros V add zero l junk e simdWidth numGroups groupId scratch results
      Ha Hc Hz Hk Hfit Hin.
    rewrite (reduceBarrier_slot V add zero Ha Hc Hz (pow2 e) simdWidth
               numGroups (Z.of_nat (length l)) scratch results l junk e
               eq_refl) by (assumption || lia).
    rewrite Nat2Z.id, firstn_all. reflexivity. }
  split; [exact H|].
  intros simdWidth junk scratch results. rewrite read_back_one.
  refine (f_equal (fun x => [x])
            (H Z Z.add 0 [1;2;3;4;5;6;7;8] junk 3%nat simdWidth 1 0 scratch
               results _ _ _ _ _ _));
    intros; (lia || (vm_compute; congruence)).
Qed.

Lemma reduceBarrier_tile_sum_witness :
  0 <= 1 < 2 /\ (1 + 1) * pow2 2 <= uint_modulus
  /\ 1 * pow2 2 < Z.of_nat (length [1;2;3;4;5;6;7])
  /\ replay
       (dispatch Z.add reduceBarrier (pow2 2) 4 2
          (buffer [1;2;3;4;5;6;7] 0) (Z.of_nat (length [1;2;3;4;5;6;7]))
          (fun _ _ => 0)) (fun _ => 0) 1 =
     total Z Z.add 0 (tile [1;2;3;4;5;6;7] (pow2 2) 1).
Proof.
  split; [lia|]. split; [vm_compute; congruence|].
  split; [vm_compute; reflexivity|].
  apply (proj1 reduceBarrier_tile_sum Z Z.add 0 [1;2;3;4;5;6;7] 0 2%nat 4 2 1
           (fun _ _ => 0) (fun _ => 0)); intros; try lia;
    vm_compute; (reflexivity || congruence).
Defined.

(** ** What lies beyond [inputLength] does not reach the output *)

Section ValidPrefix.
Variable V : Type.
Variable add : V -> V -> V.
Variables input input' : Z -> V.
Variables localSize simdWidth groupId inputLength : Z.

Hypothesis size_pos : 0 < localSize.
Hypothesis group_nonneg : 0 <= groupId.
Hypothesis ids_fit : (groupId + 1) * localSize <= uint_modulus.
Hypothesis same_prefix : forall g, 0 <= g < inputLength -> input g = input' g.

(** Two local memories that hold the same values in the slots of the
    work-items below [inputLength]. *)
Definition same_valid_slots (m m' : mem V) : Prop :=
  forall j, 0 <= j < localSize -> groupId * localSize + j < inputLength ->
    m j = m' j.

Lemma same_valid_slots_loaded m0 m0' :
  same_valid_slots
    (loaded V add input localSize simdWidth groupId inputLength m0)
    (loaded V add input' localSize simdWidth groupId inputLength m0').
Proof.
  intros j Hj Hin. assert (Hu : localSize <= uint_modulus) by nia.
  rewrite !loaded_at by assumption.
  unfold get_global_id. simpl.
  rewrite (to_uint_small (groupId * localSize + j)) by nia.
  replace (groupId * localSize + j <? inputLength) with true
    by (symmetry; apply Z.ltb_lt; exact Hin).
  apply same_prefix. nia.
Qed.

Lemma same_valid_slots_round n m m' :
  0 < n <= first_count localSize ->
  same_valid_slots m m' ->
  same_valid_slots
    (step_mem add input (ids localSize)
       (fun i => Some (fenced_of localSize simdWidth groupId inputLength i n))
       m)
    (step_mem add input' (ids localSize)
       (fun i => Some (fenced_of localSize simdWidth groupId inputLength i n))
       m').
Proof.
  intros Hn H j Hj Hin. assert (Hu : localSize <= uint_modulus) by nia.
  rewrite first_count_half in Hn by assumption.
  pose proof (Z.mul_div_le localSize 2 ltac:(lia)) as Hh.
  rewrite !fenced_at by assumption.
  unfold get_global_id. simpl.
  rewrite (to_uint_small (groupId * localSize + j)) by nia.
  destruct (j <? n) eqn:E1; simpl; [|apply H; assumption].
  apply Z.ltb_lt in E1.
  rewrite (uadd_small (groupId * localSize + j)) by nia.
  rewrite (uadd_small j n) by lia.
  destruct (groupId * localSize + j + n <? inputLength) eqn:E2;
    [|apply H; assumption].
  apply Z.ltb_lt in E2.
  rewrite (H j), (H (j + n)) by (assumption || lia). reflexivity.
Qed.

Lemma same_valid_slots_result m0 m0' :
  groupId * localSize < inputLength ->
  fenced_rounds V add input localSize simdWidth groupId inputLength
    (first_count localSize)
    (loaded V add input localSize simdWidth groupId inputLength m0) 0 =
  fenced_rounds V add input' localSize simdWidth groupId inputLength
    (first_count localSize)
    (loaded V add input' localSize simdWidth groupId inputLength m0') 0.
Proof.
  intros Hin. unfold fenced_rounds.
  apply (loop_related _ _ same_valid_slots); try lia.
  - intros n x x' Hn Hx. apply same_valid_slots_round; assumption.
  - apply same_valid_slots_loaded.
Qed.
End ValidPrefix.

(** C8, as the specification states it, fails for a group size that is not
    a power of two: one group of 6 work-items over [1,2,3,4,5] leaves 12 in
    its slot, not the sum 15 of the valid prefix (the element at position 2
    is never added). *)
Lemma reduceBarrier_six_over_five :
  read_back 1
    (replay
       (dispatch Z.add reduceBarrier 6 32 1 (buffer [1;2;3;4;5] 0) 5
          (fun _ _ => 0)) (fun _ => 0)) = [12]
  /\ read_back 1
       (replay
          (dispatch Z.add reduceBarrier 6 32 1 (buffer [1;2;3;4;5] 0) 5
             (fun _ _ => 0)) (fun _ => 0)) <>
     [total Z Z.add 0 (tile (firstn (Z.to_nat 5) [1;2;3;4;5]) 6 0)].
Proof. split; vm_compute; [reflexivity | discriminate]. Qed.

(** C8 (amended): the work-items whose global index is not below
    [inputLength] contribute nothing to the output slot of a group of
    [reduceBarrier] that holds an element of the input.  For every group
    size, the slot depends neither on what the scratch buffer held before
    nor on what the input buffer holds from [inputLength] on; with exact
    addition and a group size that is a power of two, the slot receives the
    sum of the tile of the first [inputLength] elements; [1,2,3,4,5] with
    one group of 8 work-items yields [15]. *)
Theorem reduceBarrier_valid_prefix :
  (forall (V : Type) (add : V -> V -> V) (input input' : Z -> V)
          (localSize simdWidth numGroups groupId inputLength : Z)
          (scratch scratch' : Z -> mem V) (results : Z -> V),
      0 < localSize ->
      0 <= groupId < numGroups ->
      (groupId + 1) * localSize <= uint_modulus ->
      groupId * localSize < inputLength ->
      (forall g, 0 <= g < inputLength -> input g = input' g) ->
      replay
        (dispatch add reduceBarrier localSize simdWidth numGroups input
           inputLength scratch) results groupId =
      replay
        (dispatch add reduceBarrier localSize simdWidth numGroups input'
           inputLength scratch') results groupId)
  /\
  (forall (V : Type) (add : V -> V -> V) (zero : V) (l : list V) (junk : V)
          (e : nat) (simdWidth numGroups groupId inputLength : Z)
          (scratch : Z -> mem V) (results : Z -> V),
      (forall x y z, add x (add y z) = add (add x y) z) ->
      (forall x y, add x y = add y x) ->
      (forall x, add zero x = x) ->
      0 <= groupId < numGroups ->
      (groupId + 1) * pow2 e <= uint_modulus ->
      groupId * pow2 e < inputLength <= Z.of_nat (length l) ->
      replay
        (dispatch add reduceBarrier (pow2 e) simdWidth numGroups
           (buffer l junk) inputLength scratch) results groupId =
      total V add zero
        (tile (firstn (Z.to_nat inputLength) l) (pow2 e) groupId))
  /\
  (forall (simdWidth junk : Z) (scratch : Z -> mem Z) (results : Z -> Z),
      read_back 1
        (replay
           (dispatch Z.add reduceBarrier 8 simdWidth 1
              (buffer [1;2;3;4;5] junk) 5 scratch) results) = [15]).
Proof.
  assert (H : forall (V : Type) (add : V -> V -> V) (zero : V) (l : list V)
                (junk : V) (e : nat)
                (simdWidth numGroups groupId inputLength : Z)
                (scratch : Z -> mem V) (results : Z -> V),
             (forall x y z, add x (add y z) = add (add x y) z) ->
             (forall x y, add x y = add y x) ->
             (forall x, add zero x = x) ->
             0 <= groupId < numGroups ->
             (groupId + 1) * pow2 e <= uint_modulus ->
             groupId * pow2 e < inputLength <= Z.of_nat (length l) ->
             replay
               (dispatch add reduceBarrier (pow2 e) simdWidth numGroups
                  (buffer l junk) inputLength scratch) results groupId =
             total V add zero
               (tile (firstn (Z.to_nat inputLength) l) (pow2 e) groupId)).
  { intros V add zero l junk e simdWidth numGroups groupId inputLength
      scratch results Ha Hc Hz Hk Hfit Hin.
    pose proof (pow2_pos e).
    apply (reduceBarrier_slot V add zero Ha Hc Hz (pow2 e) simdWidth
             numGroups inputLength scratch results l junk e eq_refl);
      (assumption || nia). }
  split; [|split; [exact H|]].
  - intros V add input input' localSize simdWidth numGroups groupId
      inputLength scratch scratch' results Hpos Hk Hfit Hin Hsame.
    assert (Hu : localSize <= uint_modulus) by nia.
    rewrite !dispatch_reduceBarrier_slot by assumption.
    replace (covers numGroups groupId) with true
      by (symmetry; apply covers_spec; exact Hk).
    apply same_valid_slots_result; (assumption || lia).
  - intros simdWidth junk scratch results. rewrite read_back_one.
    refine (f_equal (fun x => [x])
              (H Z Z.add 0 [1;2;3;4;5] junk 3%nat simdWidth 1 0 5 scratch
                 results _ _ _ _ _ _));
      intros; (lia || (vm_compute; intuition congruence)).
Qed.

Lemma reduceBarrier_valid_prefix_witness :
  0 <= 1 < 2 /\ (1 + 1) * pow2 2 <= uint_modulus
  /\ 1 * pow2 2 < 6 <= Z.of_nat (length [1;2;3;4;5;6;7;8])
  /\ replay
       (dispatch Z.add reduceBarrier (pow2 2) 4 2
          (buffer [1;2;3;4;5;6;7;8] 0) 6 (fun _ _ => 0)) (fun _ => 0) 1 =
     total Z Z.add 0 (tile (firstn (Z.to_nat 6) [1;2;3;4;5;6;7;8]) (pow2 2) 1).
Proof.
  split; [lia|]. split; [vm_compute; congruence|].
  split; [vm_compute; intuition congruence|].
  apply (proj1 (proj2 reduceBarrier_valid_prefix) Z Z.add 0
           [1;2;3;4;5;6;7;8] 0 2%nat 4 2 1 6 (fun _ _ => 0) (fun _ => 0));
    intros; try lia; vm_compute; intuition congruence.
Defined.

(** C2, as the specification states it, fails for a group size that is not
    a power of two: two groups of 3 work-items over [1,2,3,4,5,6] leave
    [3; 9] in the output, which adds up to 12 and not to 21 (the last
    element of each tile is never added). *)
Lemma reduceBarrier_groups_of_three :
  read_back 2
    (replay
       (dispatch Z.add reduceBarrier 3 32 2 (buffer [1;2;3;4;5;6] 0) 6
          (fun _ _ => 0)) (fun _ => 0)) = [3; 9]
  /\ total Z Z.add 0
       (read_back 2
          (replay
             (dispatch Z.add reduceBarrier 3 32 2 (buffer [1;2;3;4;5;6] 0) 6
                (fun _ _ => 0)) (fun _ => 0))) <>
     total Z Z.add 0 [1;2;3;4;5;6].
Proof. split; vm_compute; [reflexivity | discriminate]. Qed.

(** C2 (amended): with exact addition, a group size that is a power of two
    and as many groups as the input needs, the output slots of one pass of
    [reduceBarrier] add up to the sum of the input; 16 inputs with groups of
    4 work-items yield the four tile sums, and a second pass over these four
    values with one group of 4 yields the sum of the 16 inputs. *)
Theorem reduceBarrier_pass_sum :
  (forall (V : Type) (add : V -> V -> V) (zero : V) (l : list V) (junk : V)
          (e : nat) (simdWidth numGroups : Z)
          (scratch : Z -> mem V) (results : Z -> V),
      (forall x y z, add x (add y z) = add (add x y) z) ->
      (forall x y, add x y = add y x) ->
      (forall x, add zero x = x) ->
      numGroups * pow2 e <= uint_modulus ->
      (numGroups - 1) * pow2 e < Z.of_nat (length l) <= numGroups * pow2 e ->
      total V add zero
        (read_back numGroups
           (replay
              (dispatch add reduceBarrier (pow2 e) simdWidth numGroups
                 (buffer l junk) (Z.of_nat (length l)) scratch) results)) =
      total V add zero l)
  /\
  (forall (V : Type) (add : V -> V -> V) (zero : V) (l : list V)
          (junk junk' : V) (simdWidth simdWidth' : Z)
          (scratch scratch' : Z -> mem V) (results results' : Z -> V),
      (forall x y z, add x (add y z) = add (add x y) z) ->
      (forall x y, add x y = add y x) ->
      (forall x, add zero x = x) ->
      length l = 16%nat ->
      let first :=
        read_back 4
          (replay
             (dispatch add reduceBarrier 4 simdWidth 4 (buffer l junk) 16
                scratch) results) in
      first =
      [ total V add zero (firstn 4 l);
        total V add zero (firstn 4 (skipn 4 l));
        total V add zero (firstn 4 (skipn 8 l));
        total V add zero (firstn 4 (skipn 12 l)) ]
      /\
      read_back 1
        (replay
           (dispatch add reduceBarrier 4 simdWidth' 1 (buffer first junk') 4
              scratch') results') =
      [ total V add zero l ]).
Proof.
  split.
  - intros V add zero l junk e simdWidth numGroups scratch results
      Ha Hc Hz Hfit [Hneed Hcover].
    apply (reduceBarrier_pass_total V add zero Ha Hc Hz); assumption.
  - intros V add zero l junk junk' simdWidth simdWidth' scratch scratch'
      results results' Ha Hc Hz Hlen first.
    assert (Hfirst :
              first =
              map (fun k => total V add zero (tile l (pow2 2) k)) (ids 4)).
    { unfold first.
      change 16 with (Z.of_nat 16). rewrite <- Hlen.
      apply (reduceBarrier_read_back V add zero Ha Hc Hz simdWidth 4
               scratch results l junk 2%nat).
      - vm_compute. congruence.
      - rewrite Hlen. vm_compute. reflexivity. }
    split; [exact Hfirst|].
    rewrite read_back_one. f_equal.
    assert (Hl4 : length first = 4%nat) by (rewrite Hfirst; reflexivity).
    change 4 with (Z.of_nat 4) at 2. rewrite <- Hl4.
    rewrite (reduceBarrier_slot V add zero Ha Hc Hz (pow2 2) simdWidth' 1
               (Z.of_nat (length first)) scratch' results' first junk'
               2%nat eq_refl);
      try (rewrite ?Hl4; vm_compute; intuition congruence).
    rewrite Nat2Z.id, firstn_all.
    unfold tile. change (Z.to_nat (0 * pow2 2)) with 0%nat.
    change (Z.to_nat (pow2 2)) with 4%nat.
    rewrite (firstn_all2 first) by (rewrite Hl4; simpl; lia).
    simpl skipn. rewrite Hfirst.
    assert (Hp : 0 <= pow2 2) by (vm_compute; congruence).
    pose proof (total_tiles V add zero Ha Hc Hz l (pow2 2) 4 Hp) as T.
    change (Z.of_nat 4) with 4 in T. rewrite T.
    rewrite firstn_all2 by (rewrite Hlen; vm_compute; lia).
    reflexivity.
Qed.

Lemma reduceBarrier_pass_sum_witness :
  3 * pow2 1 <= uint_modulus
  /\ (3 - 1) * pow2 1 < Z.of_nat (length [1;2;3;4;5]) <= 3 * pow2 1
  /\ total Z Z.add 0
       (read_back 3
          (replay
             (dispatch Z.add reduceBarrier (pow2 1) 4 3 (buffer [1;2;3;4;5] 0)
                (Z.of_nat (length [1;2;3;4;5])) (fun _ _ => 0))
             (fun _ => 0))) =
     total Z Z.add 0 [1;2;3;4;5].
Proof.
  split; [vm_compute; congruence|].
  split; [vm_compute; intuition congruence|].
  apply (proj1 reduceBarrier_pass_sum Z Z.add 0 [1;2;3;4;5] 0 1%nat 4 3
           (fun _ _ => 0) (fun _ => 0)); intros; try lia;
    vm_compute; intuition congruence.
Defined.

(** ** The three variants *)



(** ** The events of one work-item *)

Lemma in_while_pos body e p :
  In e (while_pos body p) -> exists n, 0 < n <= Z.pos p /\ In e (body n).
Proof.
  induction p as [q IH|q IH|]; simpl; intros H; apply in_app_or in H;
    destruct H as [H|H];
    try (exists (Z.pos q~1); split; [lia | exact H]);
    try (exists (Z.pos q~0); split; [lia | exact H]);
    try (exists 1; split; [lia | exact H]);
    try (destruct (IH H) as [n [Hn Hin]]; exists n; split; [lia | exact Hin]).
  destruct H.
Qed.

Lemma in_while_positive body e a :
  In e (while_positive body a) -> exists n, 0 < n <= a /\ In e (body n).
Proof.
  destruct a as [|p|p]; simpl; try (intros []). apply in_while_pos.
Qed.

Lemma in_while_above body bound e a :
  In e (fst (while_above body bound a)) ->
  exists n, bound < n <= a /\ In e (body n).
Proof.
  destruct a as [|p|p]; simpl; try (intros []).
  induction p as [q IH|q IH|]; simpl;
    destruct (bound <? _) eqn:E; simpl; try (intros []);
    apply Z.ltb_lt in E; intros H; apply in_app_or in H;
    destruct H as [H|H];
    try (exists (Z.pos q~1); split; [lia | exact H]);
    try (exists (Z.pos q~0); split; [lia | exact H]);
    try (exists 1; split; [lia | exact H]);
    try (destruct (IH H) as [n [Hn Hin]]; exists n; split; [lia | exact Hin]).
  destruct H.
Qed.

Section Traces.
Variable w : workitem.
Variable inputLength : Z.

Let i : Z := to_uint (get_local_id w).
Let globalIndex : Z := to_uint (get_global_id w).
Let simdWidth : Z := to_uint (get_max_sub_group_size w).
Let half : Z := to_uint (ushr1 (get_local_size w)).

(** What an event of a trace can be. *)
Inductive origin (e : event) : Prop :=
| from_fence : e = Fence -> origin e
| from_masked : e = Masked -> origin e
| from_load :
    e = Load globalIndex i -> globalIndex < inputLength -> origin e
| from_fenced_round n :
    e = Accumulate n (uadd i n) i -> 0 < n <= half -> i < n ->
    uadd globalIndex n < inputLength -> origin e
| from_unfenced_round n :
    e = Accumulate n (uadd i n) i -> 0 < n <= half ->
    uadd globalIndex n < inputLength -> origin e
| from_store : e = Store (get_group_id w) -> origin e.

Lemma half_nonneg : 0 <= half.
Proof. unfold half. apply to_uint_range. Qed.

Lemma load_origin e :
  e = (if globalIndex <? inputLength then Load globalIndex i else Masked) ->
  origin e.
Proof.
  intros ->. destruct (globalIndex <? inputLength) eqn:E.
  - apply from_load; [reflexivity | apply Z.ltb_lt; exact E].
  - apply from_masked. reflexivity.
Qed.

Lemma fenced_round_origin e n :
  0 < n <= half -> In e (fenced_round i globalIndex inputLength n) ->
  origin e /\ (forall c s d, e = Accumulate c s d -> i < c).
Proof.
  intros Hn [<-|[<-|[]]].
  - destruct (i <? n) eqn:E1; simpl;
      [destruct (uadd globalIndex n <? inputLength) eqn:E2; simpl|].
    + apply Z.ltb_lt in E1. apply Z.ltb_lt in E2. split.
      * apply (from_fenced_round _ n); auto.
      * intros c s d H. inversion H; subst. exact E1.
    + split; [apply from_masked; reflexivity | discriminate].
    + split; [apply from_masked; reflexivity | discriminate].
  - split; [apply from_fence; reflexivity | discriminate].
Qed.

Lemma unfenced_round_origin e n :
  0 < n <= half ->
  In e [ if uadd globalIndex n <? inputLength
         then Accumulate n (uadd i n) i else Masked ] ->
  origin e.
Proof.
  intros Hn [<-|[]].
  destruct (uadd globalIndex n <? inputLength) eqn:E.
  - apply Z.ltb_lt in E. apply (from_unfenced_round _ n); auto.
  - apply from_masked. reflexivity.
Qed.

Lemma reduceBarrier_origin e :
  In e (reduceBarrier w inputLength) ->
  origin e /\
  (forall c s d, e = Accumulate c s d -> i < c) /\
  (forall s, e = Store s -> i = 0).
Proof.
  unfold reduceBarrier. fold i globalIndex half.
  intros [H|[H|H]].
  - split; [apply load_origin; auto|].
    subst e. destruct (_ <? _); split; discriminate.
  - subst e. split; [apply from_fence; reflexivity|]. split; discriminate.
  - apply in_app_or in H. destruct H as [H|[H|[]]].
    + apply in_while_positive in H. destruct H as [n [Hn H]].
      destruct (fenced_round_origin e n Hn H) as [Ho Hc].
      split; [exact Ho|]. split; [exact Hc|].
      intros s ->. destruct H as [H|[H|[]]]; [|discriminate].
      destruct (_ && _); discriminate.
    + subst e. destruct (i =? 0) eqn:E.
      * apply Z.eqb_eq in E. split; [apply from_store; reflexivity|].
        split; [discriminate | intros; exact E].
      * split; [apply from_masked; reflexivity|]. split; discriminate.
Qed.

Lemma reduceSimd_origin e :
  In e (reduceSimd w inputLength) -> origin e.
Proof.
  unfold reduceSimd. fold i globalIndex half.
  intros [H|H].
  - apply load_origin; auto.
  - apply in_app_or in H. destruct H as [H|[H|[]]].
    + apply in_while_positive in H. destruct H as [n [Hn H]].
      apply (unfenced_round_origin e n Hn H).
    + apply from_store. auto.
Qed.

Lemma reduceHybrid_origin e :
  In e (reduceHybrid w inputLength) ->
  origin e /\
  (forall c s d, e = Accumulate c s d ->
     (simdWidth < c /\ i < c) \/ (c <= simdWidth /\ i < simdWidth)) /\
  (forall s, e = Store s -> i = 0 /\ i < simdWidth).
Proof.
  unfold reduceHybrid. fold i globalIndex half simdWidth.
  intros [H|[H|H]].
  - split; [apply load_origin; auto|].
    subst e. destruct (_ <? _); split; discriminate.
  - subst e. split; [apply from_fence; reflexivity|]. split; discriminate.
  - apply in_app_or in H. destruct H as [H|H].
    + apply in_while_above in H. destruct H as [n [Hn H]].
      assert (Hn' : 0 < n <= half)
        by (pose proof (to_uint_range (get_max_sub_group_size w)) as Hr;
            unfold simdWidth in Hn; lia).
      destruct (fenced_round_origin e n Hn' H) as [Ho Hc].
      split; [exact Ho|]. split.
      * intros c s d He. left. split; [|exact (Hc c s d He)].
        subst e. destruct H as [H|[H|[]]]; [|discriminate].
        destruct (_ && _); inversion H; subst. lia.
      * intros s ->. destruct H as [H|[H|[]]]; [|discriminate].
        destruct (_ && _); discriminate.
    + destruct (simdWidth <=? i) eqn:Ew; [destruct H|].
      apply Z.leb_gt in Ew.
      rewrite snd_while_above in H.
      apply in_app_or in H. destruct H as [H|[H|[]]].
      * apply in_while_positive in H. destruct H as [n [Hn H]].
        pose proof (final_count_bound simdWidth half
                      (proj1 (to_uint_range _))) as Hb.
        pose proof (final_count_le simdWidth half half_nonneg) as Hl.
        split; [apply (unfenced_round_origin e n); [lia | exact H]|].
        split.
        -- intros c s d He. right. split; [|exact Ew].
           subst e. destruct H as [H|[]]. unfold accumulateVolatile in H.
           destruct (_ <? _); inversion H; subst. lia.
        -- intros s ->. destruct H as [H|[]].
           destruct (_ <? _); discriminate.
      * subst e. destruct (i =? 0) eqn:E.
        -- apply Z.eqb_eq in E. split; [apply from_store; reflexivity|].
           split; [discriminate | intros; split; [exact E | exact Ew]].
        -- split; [apply from_masked; reflexivity|]. split; discriminate.
Qed.
End Traces.

(** ** The initial load *)

Lemma load_of_origin w inputLength g d :
  origin w inputLength (Load g d) ->
  g = to_uint (get_global_id w) /\ d = to_uint (get_local_id w)
  /\ to_uint (get_global_id w) < inputLength.
Proof.
  intros [H|H|H Hlt|n H|n H|H]; try discriminate.
  inversion H; subst. auto.
Qed.

(** C6, as the specification states it, fails: the load of [reduceSimd] is
    guarded.  The work-item with global index 3 of a launch over 2 elements
    performs no load. *)
Lemma reduceSimd_load_is_guarded :
  2 <= to_uint (get_global_id (WorkItem 3 0 4 4))
  /\ ~ performs_load (reduceSimd (WorkItem 3 0 4 4) 2).
Proof.
  split; [vm_compute; congruence|].
  intros [g [d H]]. vm_compute in H.
  repeat (destruct H as [H|H]; [discriminate|]). exact H.
Qed.

(** C6 (amended): the initial load of [reduceSimd] is guarded by
    [globalIndex < inputLength], exactly as in [reduceBarrier] and
    [reduceHybrid]: a work-item performs the load if and only if its global
    index is below [inputLength], and what it loads is [input[globalIndex]]
    into its own slot. *)
Theorem reduceSimd_load_guard (w : workitem) (inputLength : Z) :
  (performs_load (reduceSimd w inputLength) <->
   to_uint (get_global_id w) < inputLength)
  /\ (forall g d, In (Load g d) (reduceSimd w inputLength) ->
        g = to_uint (get_global_id w) /\ d = to_uint (get_local_id w))
  /\ hd Masked (reduceSimd w inputLength) =
     hd Masked (reduceBarrier w inputLength)
  /\ hd Masked (reduceSimd w inputLength) =
     hd Masked (reduceHybrid w inputLength).
Proof.
  split; [split|split; [|split; reflexivity]].
  - intros [g [d H]]. apply reduceSimd_origin, load_of_origin in H. tauto.
  - intros H. exists (to_uint (get_global_id w)), (to_uint (get_local_id w)).
    unfold reduceSimd. left.
    replace (to_uint (get_global_id w) <? inputLength) with true
      by (symmetry; apply Z.ltb_lt; exact H).
    reflexivity.
  - intros g d H. apply reduceSimd_origin, load_of_origin in H. tauto.
Qed.

(** ** Who writes the output slot *)

Lemma store_of_origin w inputLength s :
  origin w inputLength (Store s) -> s = get_group_id w.
Proof.
  intros [H|H|H Hlt|n H|n H|H]; try discriminate.
  inversion H; subst. reflexivity.
Qed.

(** C5, as the specification states it, fails for [reduceSimd], whose last
    statement is not gated: in a group of 2 both work-items write. *)
Lemma reduceSimd_every_item_stores :
  ~ only_first_stores reduceSimd 2 2 0 2
  /\ writers
       (snd (run_group Z.add (buffer [1;2] 0) (ids 2)
               (fun i => reduceSimd (WorkItem i 0 2 2) 2) (fun _ => 0))) =
     [0; 1].
Proof.
  split; [|vm_compute; reflexivity].
  intros H. specialize (H 1 0). simpl in H.
  assert (E : 1 = 0); [|discriminate].
  apply H; [lia|]. vm_compute. tauto.
Qed.

(** C5 (amended): in [reduceBarrier] and [reduceHybrid] the write of the
    group's result is gated by [i == 0], so exactly one work-item of the
    group, the one with local index 0, writes the output buffer, and it
    writes slot [groupId]; in [reduceSimd] the write is not gated and every
    work-item of the group writes slot [groupId] (all of them the value of
    scratch slot 0). *)
Theorem output_writers (V : Type) (add : V -> V -> V) (input : Z -> V)
    (localSize simdWidth groupId inputLength : Z) (m0 : mem V) :
  0 < localSize <= uint_modulus ->
  0 < to_uint simdWidth ->
  let log kernel :=
    snd (run_group add input (ids localSize)
           (fun i => kernel (WorkItem i groupId localSize simdWidth)
                       inputLength) m0) in
  (writers (log reduceBarrier) = [0]
   /\ only_first_stores reduceBarrier localSize simdWidth groupId inputLength)
  /\ (writers (log reduceHybrid) = [0]
      /\ only_first_stores reduceHybrid localSize simdWidth groupId
           inputLength)
  /\ writers (log reduceSimd) = ids localSize
  /\ (forall kernel,
        kernel = reduceBarrier \/ kernel = reduceHybrid
        \/ kernel = reduceSimd ->
        forall w, In w (log kernel) ->
          slot_of w = groupId
          /\ value_of w = fst (run_group add input (ids localSize)
                                   (fun i => kernel (WorkItem i groupId
                                                       localSize simdWidth)
                                               inputLength) m0) 0).
Proof.
  intros [Hpos Hu] Hw log. unfold log.
  change (fun i => reduceBarrier (WorkItem i groupId localSize simdWidth)
                     inputLength)
    with (fun i => reduceBarrier (item localSize simdWidth groupId i)
                     inputLength).
  change (fun i => reduceHybrid (WorkItem i groupId localSize simdWidth)
                     inputLength)
    with (fun i => reduceHybrid (item localSize simdWidth groupId i)
                     inputLength).
  change (fun i => reduceSimd (WorkItem i groupId localSize simdWidth)
                     inputLength)
    with (fun i => reduceSimd (item localSize simdWidth groupId i)
                     inputLength).
  split; [split|split; [split|split]].
  - rewrite run_reduceBarrier by assumption. reflexivity.
  - intros i slot Hi H. apply reduceBarrier_origin in H.
    destruct H as [_ [_ H]]. specialize (H slot eq_refl). simpl in H.
    rewrite to_uint_small in H by lia. exact H.
  - rewrite run_reduceHybrid by assumption. reflexivity.
  - intros i slot Hi H. apply reduceHybrid_origin in H.
    destruct H as [_ [_ H]]. specialize (H slot eq_refl). simpl in H.
    rewrite to_uint_small in H by lia. tauto.
  - rewrite run_reduceSimd by assumption. simpl. unfold writers.
    rewrite map_map. simpl. apply map_id.
  - intros kernel Hk wr Hin. destruct Hk as [-> | [-> | ->]].
    + change (fun i => reduceBarrier (WorkItem i groupId localSize simdWidth)
                         inputLength)
        with (fun i => reduceBarrier (item localSize simdWidth groupId i)
                         inputLength) in *.
      rewrite run_reduceBarrier in * by assumption.
      destruct Hin as [<-|[]]. split; reflexivity.
    + change (fun i => reduceHybrid (WorkItem i groupId localSize simdWidth)
                         inputLength)
        with (fun i => reduceHybrid (item localSize simdWidth groupId i)
                         inputLength) in *.
      rewrite run_reduceHybrid in * by assumption.
      destruct Hin as [<-|[]]. split; reflexivity.
    + change (fun i => reduceSimd (WorkItem i groupId localSize simdWidth)
                         inputLength)
        with (fun i => reduceSimd (item localSize simdWidth groupId i)
                         inputLength) in *.
      rewrite run_reduceSimd in * by assumption.
      apply in_map_iff in Hin. destruct Hin as [i [<- _]].
      split; reflexivity.
Qed.

Lemma output_writers_witness :
  0 < 4 <= uint_modulus /\ 0 < to_uint 2
  /\ (writers
        (snd (run_group Z.add (buffer [1;2;3] 0) (ids 4)
                (fun i => reduceBarrier (WorkItem i 0 4 2) 3) (fun _ => 0))) =
      [0]
      /\ only_first_stores reduceBarrier 4 2 0 3)
  /\ (writers
        (snd (run_group Z.add (buffer [1;2;3] 0) (ids 4)
                (fun i => reduceHybrid (WorkItem i 0 4 2) 3) (fun _ => 0))) =
      [0]
      /\ only_first_stores reduceHybrid 4 2 0 3)
  /\ writers
       (snd (run_group Z.add (buffer [1;2;3] 0) (ids 4)
               (fun i => reduceSimd (WorkItem i 0 4 2) 3) (fun _ => 0))) =
     ids 4.
Proof.
  split; [vm_compute; intuition congruence|].
  split; [vm_compute; reflexivity|].
  assert (H1 : 0 < 4 <= uint_modulus) by (vm_compute; intuition congruence).
  assert (H2 : 0 < to_uint 2) by (vm_compute; reflexivity).
  pose proof (output_writers Z Z.add (buffer [1;2;3] 0) 4 2 0 3 (fun _ => 0)
                H1 H2) as H.
  cbv zeta in H. destruct H as [Hb [Hh [Hs _]]].
  split; [exact Hb|]. split; [exact Hh | exact Hs].
Defined.

(** ** The two phases of [reduceHybrid] *)

(** Every combine step of a trace is followed by a fence, or it belongs to
    the lockstep phase: [activeThreadCount] has come down to [simdWidth] and
    the work-item is one of the first [simdWidth]. *)
Fixpoint well_fenced (simdWidth i : Z) (t : list event) : Prop :=
  match t with
  | [] => True
  | Accumulate n _ _ :: rest =>
      match rest with
      | Fence :: _ => True
      | _ => n <= simdWidth /\ i < simdWidth
      end /\ well_fenced simdWidth i rest
  | _ :: rest => well_fenced simdWidth i rest
  end.

Lemma well_fenced_tail simdWidth i e t :
  well_fenced simdWidth i (e :: t) -> well_fenced simdWidth i t.
Proof. destruct e; simpl; tauto. Qed.

Lemma well_fenced_block simdWidth i e t :
  well_fenced simdWidth i t -> well_fenced simdWidth i (e :: Fence :: t).
Proof. destruct e; simpl; tauto. Qed.

Lemma well_fenced_lockstep simdWidth i e t :
  (forall n s d, e = Accumulate n s d -> n <= simdWidth /\ i < simdWidth) ->
  well_fenced simdWidth i t -> well_fenced simdWidth i (e :: t).
Proof.
  intros He Ht. destruct e; simpl; auto.
  split; [|exact Ht]. destruct t as [|[] t']; auto; eapply He; reflexivity.
Qed.

Lemma well_fenced_split simdWidth i pre : forall t n s d post,
  well_fenced simdWidth i t ->
  t = pre ++ Accumulate n s d :: post ->
  (exists post', post = Fence :: post')
  \/ (n <= simdWidth /\ i < simdWidth).
Proof.
  induction pre as [|x pre IH]; intros t n s d post Hw ->.
  - simpl in Hw. destruct Hw as [Hw _].
    destruct post as [|[] post']; auto. left. eexists. reflexivity.
  - simpl app in Hw. apply well_fenced_tail in Hw.
    apply (IH _ n s d post Hw). reflexivity.
Qed.

Lemma well_fenced_above simdWidth i body' bound rest a :
  well_fenced simdWidth i rest ->
  well_fenced simdWidth i
    (fst (while_above (fun n => [body' n; Fence]) bound a) ++ rest).
Proof.
  intros Hr. destruct a as [|p|p]; simpl; auto.
  induction p as [q IH|q IH|]; simpl; destruct (bound <? _); simpl; auto;
    apply well_fenced_block; auto.
Qed.

Lemma well_fenced_unfenced simdWidth i body' rest a :
  a <= simdWidth -> i < simdWidth ->
  (forall n c s d, body' n = Accumulate c s d -> c = n) ->
  well_fenced simdWidth i rest ->
  well_fenced simdWidth i (while_positive (fun n => [body' n]) a ++ rest).
Proof.
  intros Ha Hi Hb Hr. destruct a as [|p|p]; simpl; auto.
  induction p as [q IH|q IH|]; simpl;
    apply well_fenced_lockstep;
    try (intros n s d E; apply Hb in E; subst n; lia);
    try (apply IH; lia); auto.
Qed.

Lemma last_above body' bound a :
  last (Fence :: fst (while_above (fun n => [body' n; Fence]) bound a))
    Masked = Fence.
Proof.
  destruct a as [|p|p]; simpl; auto.
  induction p as [q IH|q IH|]; simpl; destruct (bound <? _); simpl; auto.
Qed.

Lemma reduceHybrid_well_fenced w inputLength :
  well_fenced (to_uint (get_max_sub_group_size w))
    (to_uint (get_local_id w)) (reduceHybrid w inputLength).
Proof.
  unfold reduceHybrid.
  apply well_fenced_block. apply well_fenced_above.
  destruct (_ <=? _) eqn:E; [exact I|]. apply Z.leb_gt in E.
  rewrite snd_while_above.
  apply well_fenced_unfenced.
  - apply final_count_bound. apply to_uint_range.
  - exact E.
  - intros n c s d H. unfold accumulateVolatile in H.
    destruct (_ <? _); inversion H; reflexivity.
  - simpl. destruct (_ =? _); exact I.
Qed.

(** C7: in [reduceHybrid], a combine step executed while
    [activeThreadCount] exceeds the sub-group width is followed by a barrier;
    a combine step that is not followed by a barrier is executed with
    [activeThreadCount] at most the sub-group width, by a work-item whose
    local index is below that width; and a work-item whose local index is
    not below the width ends on a barrier of the fenced phase: none of its
    combine steps is unfenced and it does not reach the final write. *)
Theorem reduceHybrid_phases (w : workitem) (inputLength : Z) :
  let simdWidth := to_uint (get_max_sub_group_size w) in
  let i := to_uint (get_local_id w) in
  (forall pre n s d post,
      reduceHybrid w inputLength = pre ++ Accumulate n s d :: post ->
      (simdWidth < n -> exists post', post = Fence :: post')
      /\ (hd Masked post <> Fence -> n <= simdWidth /\ i < simdWidth))
  /\ (simdWidth <= i ->
      last (reduceHybrid w inputLength) Masked = Fence
      /\ (forall slot, ~ In (Store slot) (reduceHybrid w inputLength))
      /\ (forall pre n s d post,
             reduceHybrid w inputLength = pre ++ Accumulate n s d :: post ->
             exists post', post = Fence :: post')).
Proof.
  intros simdWidth i.
  assert (Hsplit : forall pre n s d post,
             reduceHybrid w inputLength = pre ++ Accumulate n s d :: post ->
             (exists post', post = Fence :: post')
             \/ (n <= simdWidth /\ i < simdWidth)).
  { intros pre n s d post H.
    apply (well_fenced_split simdWidth i pre _ n s d post
             (reduceHybrid_well_fenced w inputLength) H). }
  split.
  - intros pre n s d post H. destruct (Hsplit pre n s d post H) as [Hf|Hl].
    + split; [intros _; exact Hf|]. destruct Hf as [post' ->]. simpl.
      intros Hn. congruence.
    + split; [intros Hn; lia | intros _; exact Hl].
  - intros Hi. split; [|split].
    + unfold reduceHybrid. fold simdWidth i.
      replace (simdWidth <=? i) with true by (symmetry; apply Z.leb_le; lia).
      rewrite app_nil_r.
      change (last (Fence :: fst
                (while_above
                   (fun n =>
                      [if (i <? n)
                          && (uadd (to_uint (get_global_id w)) n
                              <? inputLength)
                       then Accumulate n (uadd i n) i else Masked; Fence])
                   simdWidth (to_uint (ushr1 (get_local_size w)))))
                Masked = Fence).
      apply last_above.
    + intros slot H. apply reduceHybrid_origin in H.
      destruct H as [_ [_ H]]. specialize (H slot eq_refl).
      fold i simdWidth in H. lia.
    + intros pre n s d post H.
      destruct (Hsplit pre n s d post H) as [Hf|Hl]; [exact Hf | lia].
Qed.

(** ** The sources of the combine steps *)

(** C4, as the specification states it, fails for the unfenced loops, which
    are not gated by [i < activeThreadCount]: in the first of two groups of
    4 work-items over 8 elements, work-item 3 reads slot 5 at
    [activeThreadCount = 2], both in [reduceSimd] and in [reduceHybrid]. *)
Lemma unfenced_source_outside_buffer :
  In (Accumulate 2 5 3) (reduceSimd (WorkItem 3 0 4 4) 8)
  /\ In (Accumulate 2 5 3) (reduceHybrid (WorkItem 3 0 4 4) 8)
  /\ ~ sources_loaded reduceSimd 4 4 0 8
  /\ ~ sources_loaded reduceHybrid 4 4 0 8.
Proof.
  assert (H1 : In (Accumulate 2 5 3) (reduceSimd (WorkItem 3 0 4 4) 8))
    by (vm_compute; tauto).
  assert (H2 : In (Accumulate 2 5 3) (reduceHybrid (WorkItem 3 0 4 4) 8))
    by (vm_compute; tauto).
  split; [exact H1|]. split; [exact H2|]. split; intros H.
  - destruct (H 3 2 5 3 ltac:(lia) H1) as [Hs _]. lia.
  - destruct (H 3 2 5 3 ltac:(lia) H2) as [Hs _]. lia.
Qed.

Lemma accumulate_of_origin w inputLength n s d :
  origin w inputLength (Accumulate n s d) ->
  s = uadd (to_uint (get_local_id w)) n
  /\ d = to_uint (get_local_id w)
  /\ 0 < n <= to_uint (ushr1 (get_local_size w))
  /\ uadd (to_uint (get_global_id w)) n < inputLength.
Proof.
  intros [H|H|H Hlt|c H Hc Hi Hg|c H Hc Hg|H]; try discriminate;
    inversion H; subst; auto.
Qed.

Section Sources.
Variables localSize simdWidth groupId inputLength : Z.
Hypothesis size_pos : 0 < localSize.
Hypothesis group_nonneg : 0 <= groupId.
Hypothesis ids_fit : (groupId + 1) * localSize <= uint_modulus.

(** The source of a combine step of a work-item below [activeThreadCount]. *)
Lemma low_source (kernel : workitem -> Z -> list event) i n s d :
  (forall j, hd Masked (kernel (WorkItem j groupId localSize simdWidth)
                          inputLength) =
             hd Masked (reduceBarrier (WorkItem j groupId localSize simdWidth)
                          inputLength)) ->
  (forall j, kernel (WorkItem j groupId localSize simdWidth) inputLength
             <> []) ->
  0 <= i < localSize ->
  origin (WorkItem i groupId localSize simdWidth) inputLength
    (Accumulate n s d) ->
  i < n ->
  slot_loaded kernel localSize simdWidth groupId inputLength s.
Proof.
  intros Hhd Hne Hi Ho Hin.
  apply accumulate_of_origin in Ho. simpl in Ho.
  destruct Ho as [-> [_ [Hn Hg]]].
  assert (Hu : localSize <= uint_modulus) by nia.
  change (to_uint (ushr1 localSize)) with (first_count localSize) in Hn.
  rewrite first_count_half in Hn by assumption.
  pose proof (Z.mul_div_le localSize 2 ltac:(lia)) as Hhalf.
  rewrite (to_uint_small i) in * by lia.
  rewrite (uadd_small i n) by lia.
  unfold get_global_id in Hg. simpl in Hg.
  rewrite (to_uint_small (groupId * localSize + i)) in Hg by nia.
  rewrite uadd_small in Hg by nia.
  split; [lia|].
  specialize (Hhd (i + n)). specialize (Hne (i + n)).
  destruct (kernel (WorkItem (i + n) groupId localSize simdWidth)
              inputLength) as [|e t]; [congruence|].
  left. simpl in Hhd. rewrite Hhd. unfold get_global_id. simpl.
  rewrite (to_uint_small (groupId * localSize + (i + n))) by nia.
  rewrite (to_uint_small (i + n)) by lia.
  replace (groupId * localSize + (i + n) <? inputLength) with true
    by (symmetry; apply Z.ltb_lt; lia).
  reflexivity.
Qed.
End Sources.

(** C4 (amended): the combine steps of [reduceBarrier] and of the fenced
    phase of [reduceHybrid] are gated by [i < activeThreadCount] and by
    [globalIndex + activeThreadCount < inputLength]: their source slot lies
    inside the scratch buffer of the group and was loaded by a work-item
    whose global index is below [inputLength].  The combine steps of
    [reduceSimd] and of the unfenced phase of [reduceHybrid] are gated by
    [globalIndex + activeThreadCount < inputLength] alone; those of the
    work-items below [activeThreadCount] read a slot of the buffer that was
    loaded. *)
Theorem combine_sources (localSize simdWidth groupId inputLength : Z)
    (i n s d : Z) :
  0 <= groupId ->
  (groupId + 1) * localSize <= uint_modulus ->
  0 <= i < localSize ->
  sources_loaded reduceBarrier localSize simdWidth groupId inputLength
  /\ (In (Accumulate n s d)
        (reduceHybrid (WorkItem i groupId localSize simdWidth) inputLength) ->
      to_uint simdWidth < n \/ i < n ->
      slot_loaded reduceHybrid localSize simdWidth groupId inputLength s)
  /\ (In (Accumulate n s d)
        (reduceSimd (WorkItem i groupId localSize simdWidth) inputLength) ->
      uadd (to_uint (groupId * localSize + i)) n < inputLength
      /\ (i < n ->
          slot_loaded reduceSimd localSize simdWidth groupId inputLength s)).
Proof.
  intros Hk Hfit Hi. assert (Hpos : 0 < localSize) by lia.
  split; [|split].
  - intros i' n' s' d' Hi' H. apply reduceBarrier_origin in H.
    destruct H as [Ho [Hlt _]]. specialize (Hlt n' s' d' eq_refl).
    simpl in Hlt. rewrite to_uint_small in Hlt by nia.
    apply (low_source localSize simdWidth groupId inputLength Hpos Hk Hfit
             reduceBarrier i' n' s' d'); auto.
    intros j. discriminate.
  - intros H Hor. apply reduceHybrid_origin in H.
    destruct H as [Ho [Hlt _]]. specialize (Hlt n s d eq_refl).
    simpl in Hlt. rewrite (to_uint_small i) in Hlt by nia.
    apply (low_source localSize simdWidth groupId inputLength Hpos Hk Hfit
             reduceHybrid i n s d); auto; [intros j; discriminate | lia].
  - intros H. apply reduceSimd_origin in H. split.
    + apply accumulate_of_origin in H. tauto.
    + intros Hlt.
      apply (low_source localSize simdWidth groupId inputLength Hpos Hk Hfit
               reduceSimd i n s d); auto.
      intros j. discriminate.
Qed.

Lemma combine_sources_witness :
  0 <= 1 /\ (1 + 1) * 4 <= uint_modulus /\ 0 <= 0 < 4
  /\ sources_loaded reduceBarrier 4 2 1 7
  /\ (In (Accumulate 2 2 0) (reduceHybrid (WorkItem 0 1 4 2) 7) ->
      to_uint 2 < 2 \/ 0 < 2 ->
      slot_loaded reduceHybrid 4 2 1 7 2)
  /\ (In (Accumulate 2 2 0) (reduceSimd (WorkItem 0 1 4 2) 7) ->
      uadd (to_uint (1 * 4 + 0)) 2 < 7
      /\ (0 < 2 -> slot_loaded reduceSimd 4 2 1 7 2)).
Proof.
  split; [lia|]. split; [vm_compute; congruence|]. split; [lia|].
  apply (combine_sources 4 2 1 7 0 2 2 0);
    [lia | vm_compute; congruence | lia].
Defined.

(** ** The capability probe *)

(** C9: in [getSimdWidth] the work-item with local index 0 writes the
    sub-group width into slot 0 of its buffer, and a work-item with another
    local index does nothing. *)
Theorem getSimdWidth_probe (w : workitem) :
  (get_local_id w = 0 ->
   getSimdWidth w = [Probe 0 (get_max_sub_group_size w)])
  /\ (get_local_id w <> 0 -> getSimdWidth w = [Masked]).
Proof.
  unfold getSimdWidth. split; intros H.
  - rewrite H. reflexivity.
  - apply Z.eqb_neq in H. rewrite H. reflexivity.
Qed.

(** ** A group that lies beyond the input *)

Section BeyondInput.
Variable V : Type.
Variable add : V -> V -> V.
Variable input : Z -> V.
Variables localSize simdWidth groupId inputLength : Z.

Hypothesis size_pos : 0 < localSize.
Hypothesis group_nonneg : 0 <= groupId.
Hypothesis ids_fit : (groupId + 1) * localSize <= uint_modulus.
Hypothesis beyond : inputLength <= groupId * localSize.

Lemma beyond_size_fits : localSize <= uint_modulus.
Proof. nia. Qed.

Lemma beyond_no_load kernel i :
  (forall e, In e (kernel (WorkItem i groupId localSize simdWidth)
                     inputLength) ->
             origin (WorkItem i groupId localSize simdWidth) inputLength e) ->
  0 <= i < localSize ->
  ~ performs_load (kernel (WorkItem i groupId localSize simdWidth)
                     inputLength).
Proof.
  intros Ho Hi [g [d H]]. apply Ho, load_of_origin in H.
  destruct H as [_ [_ H]]. unfold get_global_id in H. simpl in H.
  rewrite to_uint_small in H by nia. lia.
Qed.

Lemma beyond_first_guard n :
  0 < n <= first_count localSize ->
  (uadd (to_uint (get_global_id (item localSize simdWidth groupId 0))) n
   <? inputLength) = false.
Proof.
  intros Hn. rewrite first_count_half in Hn
    by (try apply beyond_size_fits; assumption).
  pose proof (Z.mul_div_le localSize 2 ltac:(lia)) as Hh.
  unfold get_global_id. simpl.
  rewrite (to_uint_small (groupId * localSize + 0)) by nia.
  rewrite uadd_small by nia. apply Z.ltb_ge. lia.
Qed.

Lemma beyond_loaded m0 :
  loaded V add input localSize simdWidth groupId inputLength m0 0 = m0 0.
Proof.
  rewrite loaded_at by (try apply beyond_size_fits; lia).
  unfold get_global_id. simpl.
  rewrite (to_uint_small (groupId * localSize + 0)) by nia.
  replace (groupId * localSize + 0 <? inputLength) with false
    by (symmetry; apply Z.ltb_ge; lia).
  reflexivity.
Qed.

Lemma beyond_fenced m0 :
  fenced_rounds V add input localSize simdWidth groupId inputLength
    (first_count localSize)
    (loaded V add input localSize simdWidth groupId inputLength m0) 0 =
  m0 0.
Proof.
  unfold fenced_rounds.
  apply (loop_invariant _ (fun m => m 0 = m0 0)); [|apply beyond_loaded].
  intros n m Hn Hm.
  rewrite fenced_at by (try apply beyond_size_fits; lia).
  rewrite beyond_first_guard by assumption.
  rewrite andb_false_r. exact Hm.
Qed.

Lemma beyond_unfenced m0 :
  unfenced_rounds V add input localSize simdWidth groupId inputLength
    (first_count localSize)
    (loaded V add input localSize simdWidth groupId inputLength m0) 0 =
  m0 0.
Proof.
  unfold unfenced_rounds.
  apply (loop_invariant _ (fun m => m 0 = m0 0)); [|apply beyond_loaded].
  intros n m Hn Hm.
  rewrite unfenced_at by (try apply beyond_size_fits; lia).
  rewrite beyond_first_guard by assumption. exact Hm.
Qed.

Lemma beyond_hybrid m0 :
  hybrid_rounds V add input localSize simdWidth groupId inputLength
    (loaded V add input localSize simdWidth groupId inputLength m0) 0 =
  m0 0.
Proof.
  unfold hybrid_rounds, surviving_rounds, fenced_rounds_above.
  assert (Hc : 0 <= first_count localSize)
    by (unfold first_count; apply to_uint_range).
  pose proof (final_count_le (to_uint simdWidth) (first_count localSize) Hc)
    as Hf.
  apply (loop_invariant _ (fun m => m 0 = m0 0)).
  - intros n m Hn Hm.
    rewrite surviving_at by (try apply beyond_size_fits; lia).
    rewrite beyond_first_guard by lia.
    rewrite andb_false_r. exact Hm.
  - apply (loop_above_invariant _ (fun m => m 0 = m0 0));
      [|apply beyond_loaded].
    intros n m Hn Hm.
    rewrite fenced_at by (try apply beyond_size_fits; lia).
    rewrite beyond_first_guard by assumption.
    rewrite andb_false_r. exact Hm.
Qed.
End BeyondInput.

(** C10: in each of the three variants, a group all of whose work-items
    have a global index that is not below [inputLength] loads nothing, and
    its work-item 0 still writes slot [groupId] of the output: the value
    written is what slot 0 of the scratch buffer held when the group
    started. *)
Theorem group_beyond_input_writes (V : Type) (add : V -> V -> V)
    (input : Z -> V) (localSize simdWidth numGroups groupId inputLength : Z)
    (scratch : Z -> mem V) (results : Z -> V)
    (kernel : workitem -> Z -> list event) :
  kernel = reduceBarrier \/ kernel = reduceSimd \/ kernel = reduceHybrid ->
  0 < localSize ->
  0 < to_uint simdWidth ->
  0 <= groupId < numGroups ->
  (groupId + 1) * localSize <= uint_modulus ->
  inputLength <= groupId * localSize ->
  (forall i, 0 <= i < localSize ->
     ~ performs_load (kernel (WorkItem i groupId localSize simdWidth)
                        inputLength))
  /\ In (0, groupId, scratch groupId 0)
       (dispatch add kernel localSize simdWidth numGroups input inputLength
          scratch)
  /\ replay
       (dispatch add kernel localSize simdWidth numGroups input inputLength
          scratch) results groupId =
     scratch groupId 0.
Proof.
  intros Hk Hpos Hw Hg Hfit Hb.
  assert (Hu : localSize <= uint_modulus) by nia.
  assert (Hin : In groupId (ids numGroups)) by (apply in_ids; exact Hg).
  assert (Hc : covers numGroups groupId = true)
    by (apply covers_spec; exact Hg).
  assert (H0 : In 0 (ids localSize)) by (apply in_ids; lia).
  destruct Hk as [-> | [-> | ->]]; split; try split.
  - intros i Hi. apply beyond_no_load; try assumption; try lia.
    intros e He. apply reduceBarrier_origin in He. tauto.
  - unfold dispatch. apply in_flat_map. exists groupId. split; [exact Hin|].
    change (fun i => reduceBarrier (WorkItem i groupId localSize simdWidth)
                       inputLength)
      with (fun i => reduceBarrier (item localSize simdWidth groupId i)
                       inputLength).
    rewrite run_reduceBarrier by assumption. simpl. left.
    rewrite beyond_fenced by (assumption || lia). reflexivity.
  - rewrite dispatch_reduceBarrier_slot, Hc by assumption.
    apply beyond_fenced; assumption || lia.
  - intros i Hi. apply beyond_no_load; try assumption; try lia.
    intros e He. apply reduceSimd_origin in He. exact He.
  - unfold dispatch. apply in_flat_map. exists groupId. split; [exact Hin|].
    change (fun i => reduceSimd (WorkItem i groupId localSize simdWidth)
                       inputLength)
      with (fun i => reduceSimd (item localSize simdWidth groupId i)
                       inputLength).
    rewrite run_reduceSimd by assumption. simpl.
    apply in_map_iff. exists 0. split; [|exact H0].
    rewrite beyond_unfenced by (assumption || lia). reflexivity.
  - rewrite dispatch_reduceSimd_slot, Hc by assumption.
    apply beyond_unfenced; assumption || lia.
  - intros i Hi. apply beyond_no_load; try assumption; try lia.
    intros e He. apply reduceHybrid_origin in He. tauto.
  - unfold dispatch. apply in_flat_map. exists groupId. split; [exact Hin|].
    change (fun i => reduceHybrid (WorkItem i groupId localSize simdWidth)
                       inputLength)
      with (fun i => reduceHybrid (item localSize simdWidth groupId i)
                       inputLength).
    rewrite run_reduceHybrid by assumption. simpl. left.
    rewrite beyond_hybrid by (assumption || lia). reflexivity.
  - rewrite dispatch_reduceHybrid_slot, Hc by assumption.
    apply beyond_hybrid; assumption || lia.
Qed.

Lemma group_beyond_input_writes_witness :
  (reduceSimd = reduceBarrier \/ reduceSimd = reduceSimd
   \/ reduceSimd = reduceHybrid)
  /\ 0 < 4 /\ 0 < to_uint 4 /\ 0 <= 2 < 3
  /\ (2 + 1) * 4 <= uint_modulus /\ 7 <= 2 * 4
  /\ (forall i, 0 <= i < 4 ->
        ~ performs_load (reduceSimd (WorkItem i 2 4 4) 7))
  /\ In (0, 2, 99)
       (dispatch Z.add reduceSimd 4 4 3 (buffer [1;2;3;4;5;6;7] 0) 7
          (fun _ _ => 99))
  /\ replay
       (dispatch Z.add reduceSimd 4 4 3 (buffer [1;2;3;4;5;6;7] 0) 7
          (fun _ _ => 99)) (fun _ => 0) 2 = 99.
Proof.
  split; [right; left; reflexivity|]. split; [lia|].
  split; [vm_compute; reflexivity|]. split; [lia|].
  split; [vm_compute; congruence|]. split; [lia|].
  apply (group_beyond_input_writes Z Z.add (buffer [1;2;3;4;5;6;7] 0)
           4 4 3 2 7 (fun _ _ => 99) (fun _ => 0) reduceSimd);
    [right; left; reflexivity | lia | vm_compute; reflexivity | lia
    | vm_compute; congruence | lia].
Defined.

(** * Further properties of the kernels *)

(** ** The unfenced variants against [reduceBarrier] *)

(** Whatever the group size, a dispatch of one of the three kernels, run
    position by position, leaves in every output slot what a dispatch of
    [reduceBarrier] leaves there.  For [reduceSimd] this run is the
    behaviour of the kernel when the group fits in one sub-group. *)
Lemma dispatch_like_barrier (V : Type) (add : V -> V -> V) (input : Z -> V)
    (inputLength localSize simdWidth numGroups : Z)
    (scratch : Z -> mem V) (results : Z -> V)
    (kernel : workitem -> Z -> list event) (slot : Z) :
  kernel = reduceBarrier \/ kernel = reduceSimd \/ kernel = reduceHybrid ->
  0 < localSize <= uint_modulus ->
  0 < to_uint simdWidth ->
  replay
    (dispatch add kernel localSize simdWidth numGroups input inputLength
       scratch) results slot =
  replay
    (dispatch add reduceBarrier localSize simdWidth numGroups input
       inputLength scratch) results slot.
Proof.
  intros Hk [Hpos Hu] Hw. destruct Hk as [-> | [-> | ->]]; [reflexivity| |].
  - rewrite dispatch_reduceSimd_slot, dispatch_reduceBarrier_slot
      by assumption.
    destruct (covers numGroups slot); [|reflexivity].
    symmetry. apply barrier_simd_slot0; assumption.
  - rewrite dispatch_reduceHybrid_slot, dispatch_reduceBarrier_slot
      by assumption.
    destruct (covers numGroups slot); [|reflexivity].
    symmetry. apply barrier_hybrid_slot0; assumption.
Qed.



(** X2: with exact addition and a group size that is a power of two, the
    output slot of a group that holds an element of the input receives the
    sum of the elements of its tile below [inputLength] also from
    [reduceSimd] (group within one sub-group) and from [reduceHybrid] (any
    sub-group width of at least 1). *)
Theorem unfenced_variants_tile_sum (V : Type) (add : V -> V -> V) (zero : V)
    (l : list V) (junk : V) (e : nat)
    (simdWidth numGroups groupId inputLength : Z)
    (scratch : Z -> mem V) (results : Z -> V) :
  (forall x y z, add x (add y z) = add (add x y) z) ->
  (forall x y, add x y = add y x) ->
  (forall x, add zero x = x) ->
  0 < to_uint simdWidth ->
  0 <= groupId < numGroups ->
  (groupId + 1) * pow2 e <= uint_modulus ->
  groupId * pow2 e < inputLength <= Z.of_nat (length l) ->
  (pow2 e <= to_uint simdWidth ->
   replay
     (dispatch add reduceSimd (pow2 e) simdWidth numGroups (buffer l junk)
        inputLength scratch) results groupId =
   total V add zero (tile (firstn (Z.to_nat inputLength) l) (pow2 e) groupId))
  /\ replay
       (dispatch add reduceHybrid (pow2 e) simdWidth numGroups
          (buffer l junk) inputLength scratch) results groupId =
     total V add zero
       (tile (firstn (Z.to_nat inputLength) l) (pow2 e) groupId).
Proof.
  intros Ha Hc Hz Hw Hk Hfit Hin.
  pose proof (pow2_pos e) as Hp.
  assert (Hs : 0 < pow2 e <= uint_modulus) by nia.
  assert (Hb : replay
                 (dispatch add reduceBarrier (pow2 e) simdWidth numGroups
                    (buffer l junk) inputLength scratch) results groupId =
               total V add zero
                 (tile (firstn (Z.to_nat inputLength) l) (pow2 e) groupId)).
  { apply (reduceBarrier_slot V add zero Ha Hc Hz (pow2 e) simdWidth
             numGroups inputLength scratch results l junk e eq_refl);
      (assumption || nia). }
  split; [intros _|]; rewrite <- Hb; apply dispatch_like_barrier; auto.
Qed.

Lemma unfenced_variants_tile_sum_witness :
  (forall x y z, x + (y + z) = x + y + z)
  /\ (forall x y, x + y = y + x)
  /\ (forall x, 0 + x = x)
  /\ 0 < to_uint 4 /\ 0 <= 1 < 2 /\ (1 + 1) * pow2 2 <= uint_modulus
  /\ 1 * pow2 2 < 7 <= Z.of_nat (length [1;2;3;4;5;6;7;8])
  /\ (pow2 2 <= to_uint 4 ->
      replay
        (dispatch Z.add reduceSimd (pow2 2) 4 2 (buffer [1;2;3;4;5;6;7;8] 0)
           7 (fun _ _ => 5)) (fun _ => 0) 1 =
      total Z Z.add 0 (tile (firstn (Z.to_nat 7) [1;2;3;4;5;6;7;8]) (pow2 2) 1))
  /\ replay
       (dispatch Z.add reduceHybrid (pow2 2) 4 2 (buffer [1;2;3;4;5;6;7;8] 0)
          7 (fun _ _ => 5)) (fun _ => 0) 1 =
     total Z Z.add 0 (tile (firstn (Z.to_nat 7) [1;2;3;4;5;6;7;8]) (pow2 2) 1).
Proof.
  split; [intros; lia|]. split; [intros; lia|]. split; [intros; lia|].
  split; [vm_compute; reflexivity|]. split; [lia|].
  split; [vm_compute; congruence|].
  split; [vm_compute; intuition congruence|].
  apply (unfenced_variants_tile_sum Z Z.add 0 [1;2;3;4;5;6;7;8] 0 2%nat 4 2
           1 7 (fun _ _ => 5) (fun _ => 0)); intros; try lia;
    vm_compute; intuition congruence.
Defined.

(** ** Two passes *)

(** X3: with exact addition and a group size [G] that is a power of two, a
    pass of [reduceBarrier] over at most [G * G] elements with as many
    groups as the input needs, followed by a pass of one group over the
    slots the first pass has written, leaves the sum of the input in slot
    0. *)
Theorem reduceBarrier_two_passes (V : Type) (add : V -> V -> V) (zero : V)
    (l : list V) (junk junk' : V) (e : nat)
    (simdWidth simdWidth' numGroups : Z)
    (scratch scratch' : Z -> mem V) (results results' : Z -> V) :
  (forall x y z, add x (add y z) = add (add x y) z) ->
  (forall x y, add x y = add y x) ->
  (forall x, add zero x = x) ->
  0 < numGroups <= pow2 e ->
  numGroups * pow2 e <= uint_modulus ->
  (numGroups - 1) * pow2 e < Z.of_nat (length l) <= numGroups * pow2 e ->
  read_back 1
    (replay
       (dispatch add reduceBarrier (pow2 e) simdWidth' 1
          (buffer
             (read_back numGroups
                (replay
                   (dispatch add reduceBarrier (pow2 e) simdWidth numGroups
                      (buffer l junk) (Z.of_nat (length l)) scratch)
                   results))
             junk')
          numGroups scratch') results') =
  [total V add zero l].
Proof.
  intros Ha Hc Hz Hn Hfit [Hneed Hcover].
  pose proof (pow2_pos e) as Hp.
  set (first := read_back numGroups
                  (replay
                     (dispatch add reduceBarrier (pow2 e) simdWidth numGroups
                        (buffer l junk) (Z.of_nat (length l)) scratch)
                     results)).
  assert (Hlen : Z.of_nat (length first) = numGroups).
  { unfold first, read_back, ids. rewrite !length_map, length_seq. lia. }
  rewrite read_back_one. f_equal.
  rewrite (reduceBarrier_slot V add zero Ha Hc Hz (pow2 e) simdWidth' 1
             numGroups scratch' results' first junk' e eq_refl)
    by (rewrite ?Hlen; nia).
  rewrite <- Hlen at 1. rewrite Nat2Z.id, firstn_all.
  unfold tile. replace (Z.to_nat (0 * pow2 e)) with 0%nat by lia.
  simpl skipn. rewrite firstn_all2 by lia.
  apply (reduceBarrier_pass_total V add zero Ha Hc Hz); assumption.
Qed.

Lemma reduceBarrier_two_passes_witness :
  (forall x y z, x + (y + z) = x + y + z)
  /\ (forall x y, x + y = y + x)
  /\ (forall x, 0 + x = x)
  /\ 0 < 3 <= pow2 2 /\ 3 * pow2 2 <= uint_modulus
  /\ (3 - 1) * pow2 2 < Z.of_nat (length [1;2;3;4;5;6;7;8;9;10])
     <= 3 * pow2 2
  /\ read_back 1
       (replay
          (dispatch Z.add reduceBarrier (pow2 2) 4 1
             (buffer
                (read_back 3
                   (replay
                      (dispatch Z.add reduceBarrier (pow2 2) 4 3
                         (buffer [1;2;3;4;5;6;7;8;9;10] 0)
                         (Z.of_nat (length [1;2;3;4;5;6;7;8;9;10]))
                         (fun _ _ => 5))
                      (fun _ => 0)))
                0)
             3 (fun _ _ => 5)) (fun _ => 0)) =
     [total Z Z.add 0 [1;2;3;4;5;6;7;8;9;10]].
Proof.
  split; [intros; lia|]. split; [intros; lia|]. split; [intros; lia|].
  split; [vm_compute; intuition congruence|].
  split; [vm_compute; congruence|].
  split; [vm_compute; intuition congruence|].
  apply (reduceBarrier_two_passes Z Z.add 0 [1;2;3;4;5;6;7;8;9;10] 0 0
           2%nat 4 4 3 (fun _ _ => 5) (fun _ _ => 5) (fun _ => 0)
           (fun _ => 0)); intros; try lia; vm_compute; intuition congruence.
Defined.

(** ** What an output slot depends on *)

Section Dependence.
Variable V : Type.
Variable add : V -> V -> V.
Variables input input' : Z -> V.
Variables localSize simdWidth groupId inputLength : Z.
Variable reach : Z.

Hypothesis size_pos : 0 < localSize.
Hypothesis group_nonneg : 0 <= groupId.
Hypothesis ids_fit : (groupId + 1) * localSize <= uint_modulus.
Hypothesis reach_bounds : 0 < reach <= localSize.
Hypothesis reach_covers : 2 * (localSize / 2) <= reach.
Hypothesis same_reach :
  forall j, 0 <= j < reach -> groupId * localSize + j < inputLength ->
    input (groupId * localSize + j) = input' (groupId * localSize + j).

(** Two local memories that agree on the loaded slots below [reach]. *)
Definition same_reach_slots (m m' : mem V) : Prop :=
  forall j, 0 <= j < reach -> groupId * localSize + j < inputLength ->
    m j = m' j.

Lemma same_reach_slots_loaded m0 m0' :
  same_reach_slots
    (loaded V add input localSize simdWidth groupId inputLength m0)
    (loaded V add input' localSize simdWidth groupId inputLength m0').
Proof.
  intros j Hj Hin. assert (Hu : localSize <= uint_modulus) by nia.
  rewrite !loaded_at by (assumption || lia).
  unfold get_global_id. simpl.
  rewrite (to_uint_small (groupId * localSize + j)) by nia.
  replace (groupId * localSize + j <? inputLength) with true
    by (symmetry; apply Z.ltb_lt; exact Hin).
  apply same_reach; assumption.
Qed.

Lemma same_reach_slots_round n m m' :
  0 < n <= first_count localSize ->
  same_reach_slots m m' ->
  same_reach_slots
    (step_mem add input (ids localSize)
       (fun i => Some (fenced_of localSize simdWidth groupId inputLength i n))
       m)
    (step_mem add input' (ids localSize)
       (fun i => Some (fenced_of localSize simdWidth groupId inputLength i n))
       m').
Proof.
  intros Hn H j Hj Hin. assert (Hu : localSize <= uint_modulus) by nia.
  rewrite first_count_half in Hn by assumption.
  rewrite !fenced_at by (assumption || lia).
  unfold get_global_id. simpl.
  rewrite (to_uint_small (groupId * localSize + j)) by nia.
  destruct (j <? n) eqn:E1; simpl; [|apply H; assumption].
  apply Z.ltb_lt in E1.
  rewrite (uadd_small (groupId * localSize + j)) by nia.
  rewrite (uadd_small j n) by lia.
  destruct (groupId * localSize + j + n <? inputLength) eqn:E2;
    [|apply H; assumption].
  apply Z.ltb_lt in E2.
  rewrite (H j), (H (j + n)) by (assumption || lia). reflexivity.
Qed.

Lemma same_reach_result m0 m0' :
  groupId * localSize < inputLength ->
  fenced_rounds V add input localSize simdWidth groupId inputLength
    (first_count localSize)
    (loaded V add input localSize simdWidth groupId inputLength m0) 0 =
  fenced_rounds V add input' localSize simdWidth groupId inputLength
    (first_count localSize)
    (loaded V add input' localSize simdWidth groupId inputLength m0') 0.
Proof.
  intros Hin. unfold fenced_rounds.
  apply (loop_related _ _ same_reach_slots); try lia.
  - intros n x x' Hn Hx. apply same_reach_slots_round; assumption.
  - apply same_reach_slots_loaded.
Qed.
End Dependence.

(** The slot of a group after a dispatch of one of the three kernels, for
    two inputs that agree on the first [reach] elements of the tile. *)
Lemma dispatch_same_reach (V : Type) (add : V -> V -> V)
    (input input' : Z -> V)
    (inputLength localSize simdWidth numGroups groupId reach : Z)
    (scratch scratch' : Z -> mem V) (results : Z -> V)
    (kernel : workitem -> Z -> list event) :
  kernel = reduceBarrier \/ kernel = reduceSimd \/ kernel = reduceHybrid ->
  0 < localSize ->
  0 < to_uint simdWidth ->
  0 <= groupId < numGroups ->
  (groupId + 1) * localSize <= uint_modulus ->
  groupId * localSize < inputLength ->
  0 < reach <= localSize ->
  2 * (localSize / 2) <= reach ->
  (forall j, 0 <= j < reach -> groupId * localSize + j < inputLength ->
     input (groupId * localSize + j) = input' (groupId * localSize + j)) ->
  replay
    (dispatch add kernel localSize simdWidth numGroups input inputLength
       scratch) results groupId =
  replay
    (dispatch add kernel localSize simdWidth numGroups input' inputLength
       scratch') results groupId.
Proof.
  intros Hk Hpos Hw Hg Hfit Hin Hr Hc Hsame.
  assert (Hu : 0 < localSize <= uint_modulus) by nia.
  rewrite (dispatch_like_barrier V add input inputLength localSize simdWidth
             numGroups scratch results kernel groupId Hk Hu Hw).
  rewrite (dispatch_like_barrier V add input' inputLength localSize simdWidth
             numGroups scratch' results kernel groupId Hk Hu Hw).
  rewrite !dispatch_reduceBarrier_slot by tauto.
  replace (covers numGroups groupId) with true
    by (symmetry; apply covers_spec; exact Hg).
  apply (same_reach_result V add input input' localSize simdWidth groupId
           inputLength reach); (assumption || lia).
Qed.

(** X4: the groups of a dispatch are independent.  In [reduceBarrier], in
    [reduceHybrid], and in [reduceSimd] run with a group that fits in one
    sub-group, the output slot of a group that holds an element of the
    input depends on the elements of its own tile below [inputLength] only:
    not on the rest of the input, not on what the scratch buffers held. *)
Theorem slot_depends_on_own_tile (V : Type) (add : V -> V -> V)
    (input input' : Z -> V)
    (inputLength localSize simdWidth numGroups groupId : Z)
    (scratch scratch' : Z -> mem V) (results : Z -> V)
    (kernel : workitem -> Z -> list event) :
  kernel = reduceBarrier \/ kernel = reduceHybrid
  \/ (kernel = reduceSimd /\ localSize <= to_uint simdWidth) ->
  0 < localSize ->
  0 < to_uint simdWidth ->
  0 <= groupId < numGroups ->
  (groupId + 1) * localSize <= uint_modulus ->
  groupId * localSize < inputLength ->
  (forall g, groupId * localSize <= g < (groupId + 1) * localSize ->
     g < inputLength -> input g = input' g) ->
  replay
    (dispatch add kernel localSize simdWidth numGroups input inputLength
       scratch) results groupId =
  replay
    (dispatch add kernel localSize simdWidth numGroups input' inputLength
       scratch') results groupId.
Proof.
  intros Hk Hpos Hw Hg Hfit Hin Hsame.
  apply (dispatch_same_reach V add input input' inputLength localSize
           simdWidth numGroups groupId localSize); auto; try lia.
  - tauto.
  - pose proof (Z.mul_div_le localSize 2 ltac:(lia)). lia.
  - intros j Hj Hlt. apply Hsame; nia.
Qed.

Lemma slot_depends_on_own_tile_witness :
  (reduceSimd = reduceBarrier \/ reduceSimd = reduceHybrid
   \/ (reduceSimd = reduceSimd /\ 4 <= to_uint 4))
  /\ 0 < 4 /\ 0 < to_uint 4 /\ 0 <= 1 < 2 /\ (1 + 1) * 4 <= uint_modulus
  /\ 1 * 4 < 7
  /\ (forall g, 1 * 4 <= g < (1 + 1) * 4 -> g < 7 ->
        buffer [1;2;3;4;5;6;7] 0 g = buffer [9;9;9;9;5;6;7;9] 1 g)
  /\ replay
       (dispatch Z.add reduceSimd 4 4 2 (buffer [1;2;3;4;5;6;7] 0) 7
          (fun _ _ => 5)) (fun _ => 0) 1 =
     replay
       (dispatch Z.add reduceSimd 4 4 2 (buffer [9;9;9;9;5;6;7;9] 1) 7
          (fun _ _ => 8)) (fun _ => 0) 1.
Proof.
  assert (Hsame : forall g, 1 * 4 <= g < (1 + 1) * 4 -> g < 7 ->
            buffer [1;2;3;4;5;6;7] 0 g = buffer [9;9;9;9;5;6;7;9] 1 g).
  { intros g Hg Hlt.
    assert (Hc : g = 4 \/ g = 5 \/ g = 6) by lia.
    destruct Hc as [-> | [-> | ->]]; reflexivity. }
  assert (Hk : reduceSimd = reduceBarrier \/ reduceSimd = reduceHybrid
               \/ (reduceSimd = reduceSimd /\ 4 <= to_uint 4))
    by (right; right; split; [reflexivity | vm_compute; congruence]).
  split; [exact Hk|]. split; [lia|].
  split; [vm_compute; reflexivity|]. split; [lia|].
  split; [vm_compute; congruence|]. split; [lia|]. split; [exact Hsame|].
  apply (slot_depends_on_own_tile Z Z.add (buffer [1;2;3;4;5;6;7] 0)
           (buffer [9;9;9;9;5;6;7;9] 1) 7 4 4 2 1 (fun _ _ => 5)
           (fun _ _ => 8) (fun _ => 0) reduceSimd);
    [exact Hk | lia | vm_compute; reflexivity | lia
    | vm_compute; congruence | lia | exact Hsame].
Defined.

(** X5: with an odd group size of at least 3 the element that falls to the
    last work-item of a group never reaches the output: in [reduceBarrier],
    in [reduceHybrid], and in [reduceSimd] run with a group that fits in
    one sub-group, the slot of the group is the same for two inputs that
    differ at that element only. *)
Theorem odd_group_drops_last_element (V : Type) (add : V -> V -> V)
    (input input' : Z -> V)
    (inputLength localSize simdWidth numGroups groupId half : Z)
    (scratch : Z -> mem V) (results : Z -> V)
    (kernel : workitem -> Z -> list event) :
  kernel = reduceBarrier \/ kernel = reduceHybrid
  \/ (kernel = reduceSimd /\ localSize <= to_uint simdWidth) ->
  0 < half ->
  localSize = 2 * half + 1 ->
  0 < to_uint simdWidth ->
  0 <= groupId < numGroups ->
  (groupId + 1) * localSize <= uint_modulus ->
  groupId * localSize < inputLength ->
  (forall g, g <> groupId * localSize + (localSize - 1) ->
     input g = input' g) ->
  replay
    (dispatch add kernel localSize simdWidth numGroups input inputLength
       scratch) results groupId =
  replay
    (dispatch add kernel localSize simdWidth numGroups input' inputLength
       scratch) results groupId.
Proof.
  intros Hk Hh HG Hw Hg Hfit Hin Hsame.
  apply (dispatch_same_reach V add input input' inputLength localSize
           simdWidth numGroups groupId (2 * half)); auto; try lia.
  - tauto.
  - subst localSize.
    replace ((2 * half + 1) / 2) with half; [lia|].
    apply (Z.div_unique (2 * half + 1) 2 half 1); lia.
  - intros j Hj Hlt. apply Hsame. lia.
Qed.

Lemma odd_group_drops_last_element_witness :
  (reduceSimd = reduceBarrier \/ reduceSimd = reduceHybrid
   \/ (reduceSimd = reduceSimd /\ 5 <= to_uint 8))
  /\ 0 < 2 /\ 5 = 2 * 2 + 1 /\ 0 < to_uint 8 /\ 0 <= 0 < 1
  /\ (0 + 1) * 5 <= uint_modulus /\ 0 * 5 < 5
  /\ (forall g, g <> 0 * 5 + (5 - 1) ->
        (fun x => if x =? 4 then 100 else x) g =
        (fun x => if x =? 4 then 200 else x) g)
  /\ replay
       (dispatch Z.add reduceSimd 5 8 1
          (fun x => if x =? 4 then 100 else x) 5 (fun _ _ => 0))
       (fun _ => 0) 0 =
     replay
       (dispatch Z.add reduceSimd 5 8 1
          (fun x => if x =? 4 then 200 else x) 5 (fun _ _ => 0))
       (fun _ => 0) 0.
Proof.
  assert (Hsame : forall g, g <> 0 * 5 + (5 - 1) ->
            (fun x => if x =? 4 then 100 else x) g =
            (fun x => if x =? 4 then 200 else x) g).
  { intros g Hg. simpl.
    destruct (g =? 4) eqn:E; [apply Z.eqb_eq in E; lia | reflexivity]. }
  assert (Hk : reduceSimd = reduceBarrier \/ reduceSimd = reduceHybrid
               \/ (reduceSimd = reduceSimd /\ 5 <= to_uint 8))
    by (right; right; split; [reflexivity | vm_compute; congruence]).
  split; [exact Hk|]. split; [lia|]. split; [lia|].
  split; [vm_compute; reflexivity|]. split; [lia|].
  split; [vm_compute; congruence|]. split; [lia|]. split; [exact Hsame|].
  apply (odd_group_drops_last_element Z Z.add
           (fun x => if x =? 4 then 100 else x)
           (fun x => if x =? 4 then 200 else x) 5 5 8 1 0 2 (fun _ _ => 0)
           (fun _ => 0) reduceSimd);
    [exact Hk | lia | lia | vm_compute; reflexivity | lia
    | vm_compute; congruence | lia | exact Hsame].
Defined.

(** ** A group with a single element *)

Section SingleElement.
Variable V : Type.
Variable add : V -> V -> V.
Variable input : Z -> V.
Variables localSize simdWidth groupId inputLength : Z.

Hypothesis size_pos : 0 < localSize.
Hypothesis group_nonneg : 0 <= groupId.
Hypothesis ids_fit : (groupId + 1) * localSize <= uint_modulus.
Hypothesis first_valid : groupId * localSize < inputLength.
Hypothesis alone :
  inputLength <= groupId * localSize + 1 \/ localSize = 1.

Lemma single_size_fits : localSize <= uint_modulus.
Proof. nia. Qed.

Lemma single_first_guard n :
  0 < n <= first_count localSize ->
  (uadd (to_uint (get_global_id (item localSize simdWidth groupId 0))) n
   <? inputLength) = false.
Proof.
  intros Hn. rewrite first_count_half in Hn
    by (try apply single_size_fits; assumption).
  pose proof (Z.mul_div_le localSize 2 ltac:(lia)) as Hh.
  destruct alone as [Hl | H1].
  - unfold get_global_id. simpl.
    rewrite (to_uint_small (groupId * localSize + 0)) by nia.
    rewrite uadd_small by nia. apply Z.ltb_ge. lia.
  - subst localSize. change (1 / 2) with 0 in Hn. lia.
Qed.

Lemma single_loaded m0 :
  loaded V add input localSize simdWidth groupId inputLength m0 0 =
  input (groupId * localSize).
Proof.
  rewrite loaded_at by (try apply single_size_fits; lia).
  unfold get_global_id. simpl.
  rewrite (to_uint_small (groupId * localSize + 0)) by nia.
  replace (groupId * localSize + 0 <? inputLength) with true
    by (symmetry; apply Z.ltb_lt; lia).
  rewrite Z.add_0_r. reflexivity.
Qed.

Lemma single_fenced m0 :
  fenced_rounds V add input localSize simdWidth groupId inputLength
    (first_count localSize)
    (loaded V add input localSize simdWidth groupId inputLength m0) 0 =
  input (groupId * localSize).
Proof.
  unfold fenced_rounds.
  apply (loop_invariant _ (fun m => m 0 = input (groupId * localSize)));
    [|apply single_loaded].
  intros n m Hn Hm.
  rewrite fenced_at by (try apply single_size_fits; lia).
  rewrite single_first_guard by assumption.
  rewrite andb_false_r. exact Hm.
Qed.
End SingleElement.

(** X6: a group that holds exactly one element of the input (a tail group
    whose tile starts at [inputLength - 1], or a group of size 1) copies
    this element to its output slot, in [reduceBarrier], in [reduceHybrid],
    and in [reduceSimd] run with a group that fits in one sub-group:
    nothing is added to it. *)
Theorem single_element_group (V : Type) (add : V -> V -> V) (input : Z -> V)
    (inputLength localSize simdWidth numGroups groupId : Z)
    (scratch : Z -> mem V) (results : Z -> V)
    (kernel : workitem -> Z -> list event) :
  kernel = reduceBarrier \/ kernel = reduceHybrid
  \/ (kernel = reduceSimd /\ localSize <= to_uint simdWidth) ->
  0 < localSize ->
  0 < to_uint simdWidth ->
  0 <= groupId < numGroups ->
  (groupId + 1) * localSize <= uint_modulus ->
  groupId * localSize < inputLength ->
  inputLength <= groupId * localSize + 1 \/ localSize = 1 ->
  replay
    (dispatch add kernel localSize simdWidth numGroups input inputLength
       scratch) results groupId =
  input (groupId * localSize).
Proof.
  intros Hk' Hpos Hw Hg Hfit Hin Halone.
  assert (Hk : kernel = reduceBarrier \/ kernel = reduceSimd
               \/ kernel = reduceHybrid) by tauto.
  assert (Hu : 0 < localSize <= uint_modulus) by nia.
  rewrite (dispatch_like_barrier V add input inputLength localSize simdWidth
             numGroups scratch results kernel groupId Hk Hu Hw).
  rewrite dispatch_reduceBarrier_slot by tauto.
  replace (covers numGroups groupId) with true
    by (symmetry; apply covers_spec; exact Hg).
  apply single_fenced; (assumption || lia).
Qed.

Lemma single_element_group_witness :
  (reduceHybrid = reduceBarrier \/ reduceHybrid = reduceHybrid
   \/ (reduceHybrid = reduceSimd /\ 4 <= to_uint 2))
  /\ 0 < 4 /\ 0 < to_uint 2 /\ 0 <= 2 < 3 /\ (2 + 1) * 4 <= uint_modulus
  /\ 2 * 4 < 9 /\ (9 <= 2 * 4 + 1 \/ 4 = 1)
  /\ replay
       (dispatch Z.add reduceHybrid 4 2 3
          (buffer [1;2;3;4;5;6;7;8;9] 0) 9 (fun _ _ => 5)) (fun _ => 0) 2 =
     buffer [1;2;3;4;5;6;7;8;9] 0 (2 * 4).
Proof.
  split; [right; left; reflexivity|]. split; [lia|].
  split; [vm_compute; reflexivity|]. split; [lia|].
  split; [vm_compute; congruence|]. split; [lia|]. split; [left; lia|].
  apply (single_element_group Z Z.add (buffer [1;2;3;4;5;6;7;8;9] 0) 9 4 2 3
           2 (fun _ _ => 5) (fun _ => 0) reduceHybrid);
    [right; left; reflexivity | lia | vm_compute; reflexivity | lia
    | vm_compute; congruence | lia | left; lia].
Defined.

(** ** The memory a work-item touches *)

(** X7: in each of the three kernels a work-item reads the input at its own
    global index only, and only when this index is below [inputLength]; it
    writes no slot of the local memory but its own; and it writes no slot
    of the output buffer but the one of its group. *)
Theorem work_item_footprint (w : workitem) (inputLength : Z)
    (kernel : workitem -> Z -> list event) :
  kernel = reduceBarrier \/ kernel = reduceSimd \/ kernel = reduceHybrid ->
  (forall g d, In (Load g d) (kernel w inputLength) ->
     g = to_uint (get_global_id w) /\ 0 <= g < inputLength
     /\ d = to_uint (get_local_id w))
  /\ (forall n s d, In (Accumulate n s d) (kernel w inputLength) ->
        d = to_uint (get_local_id w))
  /\ (forall slot, In (Store slot) (kernel w inputLength) ->
        slot = get_group_id w).
Proof.
  intros Hk.
  assert (Ho : forall e, In e (kernel w inputLength) ->
                         origin w inputLength e).
  { intros e He. destruct Hk as [-> | [-> | ->]].
    - apply reduceBarrier_origin in He. tauto.
    - apply reduceSimd_origin in He. exact He.
    - apply reduceHybrid_origin in He. tauto. }
  split; [|split].
  - intros g d H. apply Ho, load_of_origin in H.
    destruct H as [-> [-> Hlt]].
    pose proof (to_uint_range (get_global_id w)). tauto.
  - intros n s d H. apply Ho, accumulate_of_origin in H. tauto.
  - intros slot H. apply Ho, store_of_origin in H. exact H.
Qed.

Lemma work_item_footprint_witness :
  (reduceSimd = reduceBarrier \/ reduceSimd = reduceSimd
   \/ reduceSimd = reduceHybrid)
  /\ (forall g d, In (Load g d) (reduceSimd (WorkItem 3 1 4 4) 8) ->
        g = to_uint (get_global_id (WorkItem 3 1 4 4)) /\ 0 <= g < 8
        /\ d = to_uint (get_local_id (WorkItem 3 1 4 4)))
  /\ (forall n s d, In (Accumulate n s d) (reduceSimd (WorkItem 3 1 4 4) 8) ->
        d = to_uint (get_local_id (WorkItem 3 1 4 4)))
  /\ (forall slot, In (Store slot) (reduceSimd (WorkItem 3 1 4 4) 8) ->
        slot = get_group_id (WorkItem 3 1 4 4)).
Proof.
  split; [right; left; reflexivity|].
  apply (work_item_footprint (WorkItem 3 1 4 4) 8 reduceSimd).
  right; left; reflexivity.
Defined.

(** X8: a dispatch of one of the three kernels writes the output slots of
    its groups and no other: a slot whose index is not the id of a group
    keeps its content, and a slot of a group receives a value that does not
    depend on what the output buffer held. *)
Theorem dispatch_output_footprint (V : Type) (add : V -> V -> V)
    (input : Z -> V) (inputLength localSize simdWidth numGroups : Z)
    (scratch : Z -> mem V) (results results' : Z -> V)
    (kernel : workitem -> Z -> list event) (slot : Z) :
  kernel = reduceBarrier \/ kernel = reduceSimd \/ kernel = reduceHybrid ->
  0 < localSize <= uint_modulus ->
  0 < to_uint simdWidth ->
  (~ 0 <= slot < numGroups ->
   replay
     (dispatch add kernel localSize simdWidth numGroups input inputLength
        scratch) results slot = results slot)
  /\ (0 <= slot < numGroups ->
      replay
        (dispatch add kernel localSize simdWidth numGroups input inputLength
           scratch) results slot =
      replay
        (dispatch add kernel localSize simdWidth numGroups input inputLength
           scratch) results' slot).
Proof.
  intros Hk Hs Hw.
  rewrite (dispatch_like_barrier V add input inputLength localSize simdWidth
             numGroups scratch results kernel slot Hk Hs Hw).
  rewrite (dispatch_like_barrier V add input inputLength localSize simdWidth
             numGroups scratch results' kernel slot Hk Hs Hw).
  rewrite !dispatch_reduceBarrier_slot by tauto.
  split; intros H.
  - replace (covers numGroups slot) with false; [reflexivity|].
    symmetry. destruct (covers numGroups slot) eqn:E; [|reflexivity].
    apply covers_spec in E. contradiction.
  - replace (covers numGroups slot) with true; [reflexivity|].
    symmetry. apply covers_spec. exact H.
Qed.

Lemma dispatch_output_footprint_witness :
  (reduceSimd = reduceBarrier \/ reduceSimd = reduceSimd
   \/ reduceSimd = reduceHybrid)
  /\ 0 < 4 <= uint_modulus /\ 0 < to_uint 4
  /\ (~ 0 <= 2 < 2 ->
      replay
        (dispatch Z.add reduceSimd 4 4 2 (buffer [1;2;3;4;5;6;7] 0) 7
           (fun _ _ => 5)) (fun j => j + 40) 2 = (fun j => j + 40) 2)
  /\ (0 <= 2 < 2 ->
      replay
        (dispatch Z.add reduceSimd 4 4 2 (buffer [1;2;3;4;5;6;7] 0) 7
           (fun _ _ => 5)) (fun j => j + 40) 2 =
      replay
        (dispatch Z.add reduceSimd 4 4 2 (buffer [1;2;3;4;5;6;7] 0) 7
           (fun _ _ => 5)) (fun _ => 0) 2).
Proof.
  split; [right; left; reflexivity|].
  split; [vm_compute; intuition congruence|].
  split; [vm_compute; reflexivity|].
  apply (dispatch_output_footprint Z Z.add (buffer [1;2;3;4;5;6;7] 0) 7 4 4 2
           (fun _ _ => 5) (fun j => j + 40) (fun _ => 0) reduceSimd 2);
    [right; left; reflexivity | vm_compute; intuition congruence
    | vm_compute; reflexivity].
Defined.

(** ** The barriers of a trace *)

Definition is_fence (e : event) : bool :=
  match e with
  | Fence => true
  | _ => false
  end.

(** The number of barriers a work-item executes. *)
Definition fences (t : list event) : nat := length (filter is_fence t).

Lemma is_fence_true e : is_fence e = true <-> e = Fence.
Proof. destruct e; simpl; split; intros H; congruence. Qed.

Lemma nth_fence k t :
  nth k t Masked = Fence <-> nth k (map is_fence t) false = true.
Proof.
  change false with (is_fence Masked). rewrite map_nth.
  symmetry. apply is_fence_true.
Qed.

Lemma fences_app t t' : fences (t ++ t') = (fences t + fences t')%nat.
Proof. unfold fences. rewrite filter_app, length_app. reflexivity. Qed.

Lemma fences_none t :
  (forall e, In e t -> is_fence e = false) -> fences t = 0%nat.
Proof.
  unfold fences. induction t as [|e t IH]; intros H; simpl; auto.
  rewrite (H e (or_introl eq_refl)).
  apply IH. intros e' He'. apply H. right. exact He'.
Qed.

Lemma nth_app_no_fence k t t' :
  (forall e, In e t' -> is_fence e = false) ->
  nth k (map is_fence (t ++ t')) false = nth k (map is_fence t) false.
Proof.
  intros H. rewrite map_app.
  destruct (Nat.lt_ge_cases k (length (map is_fence t))) as [Hk|Hk].
  - apply app_nth1. exact Hk.
  - rewrite app_nth2, (nth_overflow (map is_fence t)) by lia.
    destruct (nth_in_or_default (k - length (map is_fence t))
                (map is_fence t') false) as [Hin|Hd]; [|exact Hd].
    apply in_map_iff in Hin. destruct Hin as [e [He Hin]].
    rewrite <- He. apply H. exact Hin.
Qed.

Section FencePattern.
Variables body body' : Z -> list event.
Hypothesis same_pattern :
  forall n, map is_fence (body n) = map is_fence (body' n).

Lemma pattern_while_positive a :
  map is_fence (while_positive body a) =
  map is_fence (while_positive body' a).
Proof.
  destruct a as [|p|p]; simpl; auto.
  induction p as [q IH|q IH|]; simpl; rewrite !map_app, same_pattern;
    try rewrite IH; reflexivity.
Qed.

Lemma pattern_while_above bound a :
  map is_fence (fst (while_above body bound a)) =
  map is_fence (fst (while_above body' bound a)).
Proof.
  destruct a as [|p|p]; simpl; auto.
  induction p as [q IH|q IH|]; simpl; destruct (bound <? _); simpl; auto;
    rewrite !map_app, same_pattern; try rewrite IH; reflexivity.
Qed.
End FencePattern.

Lemma pattern_fenced_round i g inputLength n :
  map is_fence (fenced_round i g inputLength n) = [false; true].
Proof. unfold fenced_round. destruct (_ && _); reflexivity. Qed.

Lemma no_fence_unfenced_loop i g inputLength a e :
  In e (while_positive
          (fun n =>
             [if uadd g n <? inputLength
              then Accumulate n (uadd i n) i else Masked]) a) ->
  is_fence e = false.
Proof.
  intros H. apply in_while_positive in H. destruct H as [n [_ [<-|[]]]].
  destruct (_ <? _); reflexivity.
Qed.

Lemma no_fence_hybrid_tail w inputLength e :
  let i := to_uint (get_local_id w) in
  let g := to_uint (get_global_id w) in
  let simdWidth := to_uint (get_max_sub_group_size w) in
  In e (if simdWidth <=? i then []
        else
          while_positive
            (fun n =>
               [if uadd g n <? inputLength
                then accumulateVolatile (uadd i n) i n else Masked])
            (final_count simdWidth (to_uint (ushr1 (get_local_size w))))
          ++ [if i =? 0 then Store (get_group_id w) else Masked]) ->
  is_fence e = false.
Proof.
  intros i g simdWidth H. destruct (simdWidth <=? i); [destruct H|].
  apply in_app_or in H. destruct H as [H|[<-|[]]].
  - apply (no_fence_unfenced_loop i g inputLength _ e H).
  - destruct (i =? 0); reflexivity.
Qed.

Lemma reduceHybrid_split w inputLength :
  reduceHybrid w inputLength =
  ((if to_uint (get_global_id w) <? inputLength
    then Load (to_uint (get_global_id w)) (to_uint (get_local_id w))
    else Masked)
   :: Fence
   :: fst (while_above
             (fenced_round (to_uint (get_local_id w))
                (to_uint (get_global_id w)) inputLength)
             (to_uint (get_max_sub_group_size w))
             (to_uint (ushr1 (get_local_size w)))))
  ++ (if to_uint (get_max_sub_group_size w) <=? to_uint (get_local_id w)
      then []
      else
        while_positive
          (fun n =>
             [if uadd (to_uint (get_global_id w)) n <? inputLength
              then accumulateVolatile
                     (uadd (to_uint (get_local_id w)) n)
                     (to_uint (get_local_id w)) n
              else Masked])
          (final_count (to_uint (get_max_sub_group_size w))
             (to_uint (ushr1 (get_local_size w))))
        ++ [if to_uint (get_local_id w) =? 0
            then Store (get_group_id w) else Masked]).
Proof.
  unfold reduceHybrid. rewrite snd_while_above. reflexivity.
Qed.

Lemma pattern_reduceBarrier w inputLength :
  map is_fence (reduceBarrier w inputLength) =
  false :: true ::
  map is_fence
    (while_positive (fun _ => [Masked; Fence])
       (to_uint (ushr1 (get_local_size w))))
  ++ [false].
Proof.
  unfold reduceBarrier. cbn [map]. rewrite map_app.
  rewrite (pattern_while_positive _ (fun _ => [Masked; Fence]))
    by (intros n; apply pattern_fenced_round).
  cbn [map]. destruct (_ <? _), (_ =? _); reflexivity.
Qed.

Lemma pattern_reduceSimd w inputLength :
  map is_fence (reduceSimd w inputLength) =
  false ::
  map is_fence
    (while_positive (fun _ => [Masked]) (to_uint (ushr1 (get_local_size w))))
  ++ [false].
Proof.
  unfold reduceSimd. cbn [map]. rewrite map_app.
  rewrite (pattern_while_positive _ (fun _ => [Masked]))
    by (intros n; cbn [map]; destruct (_ <? _); reflexivity).
  cbn [map]. destruct (_ <? _); reflexivity.
Qed.

Lemma pattern_reduceHybrid w inputLength k :
  nth k (map is_fence (reduceHybrid w inputLength)) false =
  nth k
    (false :: true ::
     map is_fence
       (fst (while_above (fun _ => [Masked; Fence])
               (to_uint (get_max_sub_group_size w))
               (to_uint (ushr1 (get_local_size w))))))
    false.
Proof.
  rewrite reduceHybrid_split.
  rewrite nth_app_no_fence by apply no_fence_hybrid_tail.
  cbn [map].
  rewrite (pattern_while_above _ (fun _ => [Masked; Fence]))
    by (intros n; apply pattern_fenced_round).
  destruct (_ <? _); reflexivity.
Qed.

(** X9: the barriers of a kernel are reached by all work-items of a group
    or by none.  For two work-items of groups of the same size, on devices
    of the same sub-group width, the statement at a position of the trace
    of one is a barrier if and only if the statement at this position of
    the trace of the other is one, whatever their local ids and whichever
    guards hold; in [reduceHybrid] a work-item returns after the last
    barrier only. *)
Theorem barrier_convergence (w w' : workitem) (inputLength inputLength' : Z)
    (kernel : workitem -> Z -> list event) (k : nat) :
  kernel = reduceBarrier \/ kernel = reduceSimd \/ kernel = reduceHybrid ->
  get_local_size w = get_local_size w' ->
  get_max_sub_group_size w = get_max_sub_group_size w' ->
  (nth k (kernel w inputLength) Masked = Fence <->
   nth k (kernel w' inputLength') Masked = Fence).
Proof.
  intros Hk HG Hw. rewrite !nth_fence.
  assert (E : nth k (map is_fence (kernel w inputLength)) false =
              nth k (map is_fence (kernel w' inputLength')) false);
    [|rewrite E; tauto].
  destruct Hk as [-> | [-> | ->]].
  - rewrite !pattern_reduceBarrier, HG. reflexivity.
  - rewrite !pattern_reduceSimd, HG. reflexivity.
  - rewrite !pattern_reduceHybrid, HG, Hw. reflexivity.
Qed.

Lemma barrier_convergence_witness :
  (reduceHybrid = reduceBarrier \/ reduceHybrid = reduceSimd
   \/ reduceHybrid = reduceHybrid)
  /\ get_local_size (WorkItem 0 0 8 2) = get_local_size (WorkItem 5 1 8 2)
  /\ get_max_sub_group_size (WorkItem 0 0 8 2) =
     get_max_sub_group_size (WorkItem 5 1 8 2)
  /\ (nth 3 (reduceHybrid (WorkItem 0 0 8 2) 11) Masked = Fence <->
      nth 3 (reduceHybrid (WorkItem 5 1 8 2) 11) Masked = Fence).
Proof.
  split; [right; right; reflexivity|].
  split; [reflexivity|]. split; [reflexivity|].
  apply (barrier_convergence (WorkItem 0 0 8 2) (WorkItem 5 1 8 2) 11 11
           reduceHybrid 3);
    [right; right; reflexivity | reflexivity | reflexivity].
Defined.

(** ** How many barriers *)

(** The number of iterations of [while (a > 0) { ...; a >>= 1; }]. *)
Definition rounds (a : Z) : nat :=
  match a with
  | Zpos p => Pos.size_nat p
  | _ => O
  end.

Lemma fences_fenced_round i g inputLength n :
  fences (fenced_round i g inputLength n) = 1%nat.
Proof. unfold fenced_round. destruct (_ && _); reflexivity. Qed.

Lemma fences_fenced_loop i g inputLength a :
  fences (while_positive (fenced_round i g inputLength) a) = rounds a.
Proof.
  destruct a as [|p|p]; try reflexivity.
  cbn [while_positive rounds].
  induction p as [q IH|q IH|]; cbn [while_pos Pos.size_nat];
    rewrite fences_app, fences_fenced_round; try rewrite IH; reflexivity.
Qed.

Lemma fences_fenced_above i g inputLength bound a :
  (fences (fst (while_above (fenced_round i g inputLength) bound a))
   <= rounds a)%nat.
Proof.
  destruct a as [|p|p]; try (unfold fences; simpl; lia).
  cbn [while_above rounds].
  induction p as [q IH|q IH|];
    cbn [while_above_pos Pos.size_nat]; destruct (bound <? _);
    cbn [fst]; try (unfold fences; simpl; lia);
    rewrite fences_app, fences_fenced_round.
  - lia.
  - lia.
  - unfold fences. simpl. lia.
Qed.

Lemma while_above_le body bound a :
  a <= bound -> while_above body bound a = ([], a).
Proof.
  intros H. destruct a as [|p|p]; simpl; auto.
  destruct p; simpl;
    (replace (bound <? _) with false; [reflexivity|]);
    symmetry; apply Z.ltb_ge; exact H.
Qed.

Lemma rounds_pow2 e : rounds (pow2 e) = S e.
Proof.
  induction e as [|e IH]; [reflexivity|].
  rewrite pow2_succ. pose proof (pow2_pos e) as Hp.
  destruct (pow2 e) as [|p|p]; try lia.
  simpl in *. congruence.
Qed.

Lemma pow2_le_add s d : pow2 s <= pow2 (s + d).
Proof.
  induction d as [|d IH]; [rewrite Nat.add_0_r; lia|].
  rewrite Nat.add_succ_r, pow2_succ. pose proof (pow2_pos (s + d)). lia.
Qed.

Lemma fences_above_pow2 i g inputLength s d :
  fences
    (fst (while_above (fenced_round i g inputLength) (pow2 s)
            (pow2 (s + d)))) = d.
Proof.
  induction d as [|d IH].
  - rewrite Nat.add_0_r, while_above_le by lia. reflexivity.
  - rewrite while_above_unfold by (pose proof (pow2_pos s); lia).
    replace (pow2 s <? pow2 (s + S d)) with true.
    + cbn [fst]. rewrite fences_app, fences_fenced_round.
      rewrite Nat.add_succ_r, ushr1_pow2, IH. reflexivity.
    + symmetry. apply Z.ltb_lt. rewrite Nat.add_succ_r, pow2_succ.
      pose proof (pow2_le_add s d). pose proof (pow2_pos s). lia.
Qed.

Lemma first_count_pow2 e :
  pow2 e <= uint_modulus ->
  to_uint (ushr1 (pow2 e)) = match e with O => 0 | S e' => pow2 e' end.
Proof.
  intros H. destruct e as [|e]; [reflexivity|].
  rewrite ushr1_pow2. apply to_uint_small.
  rewrite pow2_succ in H. pose proof (pow2_pos e). lia.
Qed.

(** X10: the barriers a work-item executes, for a group of [2 ^ e]
    work-items.  [reduceBarrier] executes [e + 1] of them and [reduceSimd]
    none; [reduceHybrid] executes at least one and never more than
    [reduceBarrier]: one when the group is at most twice the sub-group
    width, and [d + 1] for a sub-group width of [2 ^ s] with
    [e = s + d + 1]. *)
Theorem barrier_counts (w : workitem) (inputLength : Z) (e : nat) :
  get_local_size w = pow2 e ->
  pow2 e <= uint_modulus ->
  fences (reduceBarrier w inputLength) = S e
  /\ fences (reduceSimd w inputLength) = O
  /\ (1 <= fences (reduceHybrid w inputLength) <= S e)%nat
  /\ (pow2 e <= 2 * to_uint (get_max_sub_group_size w) ->
      fences (reduceHybrid w inputLength) = 1%nat)
  /\ (forall s d,
        e = (s + S d)%nat ->
        to_uint (get_max_sub_group_size w) = pow2 s ->
        fences (reduceHybrid w inputLength) = S d).
Proof.
  intros HG Hu.
  assert (Hr : rounds (to_uint (ushr1 (pow2 e))) = e).
  { rewrite first_count_pow2 by assumption.
    destruct e as [|e']; [reflexivity | apply rounds_pow2]. }
  assert (Hh :
             fences (reduceHybrid w inputLength) =
             S (fences
                  (fst (while_above
                          (fenced_round (to_uint (get_local_id w))
                             (to_uint (get_global_id w)) inputLength)
                          (to_uint (get_max_sub_group_size w))
                          (to_uint (ushr1 (pow2 e))))))).
  { rewrite reduceHybrid_split, fences_app.
    rewrite (fences_none (if _ <=? _ then _ else _))
      by apply no_fence_hybrid_tail.
    rewrite Nat.add_0_r, HG.
    change (fences (?x :: Fence :: ?t)) with (fences ([x; Fence] ++ t)).
    rewrite fences_app. destruct (_ <? _); reflexivity. }
  split; [|split; [|split; [|split]]].
  - unfold reduceBarrier. rewrite HG.
    change (fences (?x :: Fence :: ?t)) with (fences ([x; Fence] ++ t)).
    rewrite !fences_app, fences_fenced_loop, Hr.
    destruct (_ <? _), (_ =? _); unfold fences; simpl; lia.
  - apply fences_none. unfold reduceSimd. intros x [<-|Hx].
    + destruct (_ <? _); reflexivity.
    + apply in_app_or in Hx. destruct Hx as [Hx|[<-|[]]]; [|reflexivity].
      apply no_fence_unfenced_loop in Hx. exact Hx.
  - rewrite Hh.
    pose proof (fences_fenced_above (to_uint (get_local_id w))
                  (to_uint (get_global_id w)) inputLength
                  (to_uint (get_max_sub_group_size w))
                  (to_uint (ushr1 (pow2 e)))) as Hle.
    rewrite Hr in Hle. lia.
  - intros Hsw. rewrite Hh, while_above_le; [reflexivity|].
    rewrite first_count_pow2 by assumption.
    destruct e as [|e']; [apply to_uint_range|].
    rewrite pow2_succ in Hsw. lia.
  - intros s d He Hsw. rewrite Hh, Hsw, first_count_pow2 by assumption.
    subst e. rewrite Nat.add_succ_r.
    rewrite fences_above_pow2. reflexivity.
Qed.

Lemma barrier_counts_witness :
  get_local_size (WorkItem 3 0 64 8) = pow2 6
  /\ pow2 6 <= uint_modulus
  /\ fences (reduceBarrier (WorkItem 3 0 64 8) 100) = 7%nat
  /\ fences (reduceSimd (WorkItem 3 0 64 8) 100) = O
  /\ (1 <= fences (reduceHybrid (WorkItem 3 0 64 8) 100) <= 7)%nat
  /\ (pow2 6 <= 2 * to_uint (get_max_sub_group_size (WorkItem 3 0 64 8)) ->
      fences (reduceHybrid (WorkItem 3 0 64 8) 100) = 1%nat)
  /\ (forall s d,
        6%nat = (s + S d)%nat ->
        to_uint (get_max_sub_group_size (WorkItem 3 0 64 8)) = pow2 s ->
        fences (reduceHybrid (WorkItem 3 0 64 8) 100) = S d).
Proof.
  split; [reflexivity|]. split; [vm_compute; congruence|].
  apply (barrier_counts (WorkItem 3 0 64 8) 100 6);
    [reflexivity | vm_compute; congruence].
Defined.

(** ** Where the unfenced loops stay inside the buffer *)

(** X11: in the last group of a dispatch (one that the input does not
    reach beyond, in particular the group of a single-group dispatch) the
    guard [globalIndex + activeThreadCount < inputLength] of the unfenced
    loops keeps every combine step of [reduceSimd] and of [reduceHybrid]
    inside the scratch buffer: its source is a slot of the buffer that its
    owner has loaded. *)
Theorem unfenced_sources_in_last_group
    (localSize simdWidth groupId inputLength : Z)
    (kernel : workitem -> Z -> list event) :
  kernel = reduceSimd \/ kernel = reduceHybrid ->
  0 <= groupId ->
  (groupId + 2) * localSize <= uint_modulus ->
  inputLength <= (groupId + 1) * localSize ->
  sources_loaded kernel localSize simdWidth groupId inputLength.
Proof.
  intros Hk Hg Hfit Hlast i n s d Hi H.
  assert (Hpos : 0 < localSize) by lia.
  assert (Hu : localSize <= uint_modulus) by nia.
  assert (Ho : origin (WorkItem i groupId localSize simdWidth) inputLength
                 (Accumulate n s d)).
  { destruct Hk as [-> | ->].
    - apply reduceSimd_origin. exact H.
    - apply reduceHybrid_origin in H. tauto. }
  apply accumulate_of_origin in Ho. simpl in Ho.
  destruct Ho as [-> [_ [Hn Hlt]]].
  change (to_uint (ushr1 localSize)) with (first_count localSize) in Hn.
  rewrite first_count_half in Hn by assumption.
  pose proof (Z.mul_div_le localSize 2 ltac:(lia)) as Hh.
  unfold get_global_id in Hlt. simpl in Hlt.
  rewrite (to_uint_small (groupId * localSize + i)) in Hlt by nia.
  rewrite uadd_small in Hlt by nia.
  rewrite (to_uint_small i) by lia.
  assert (Hs : 0 <= i + n < localSize) by nia.
  rewrite (uadd_small i n) by lia.
  split; [exact Hs|].
  assert (Hhd : hd Masked
                  (kernel (WorkItem (i + n) groupId localSize simdWidth)
                     inputLength) =
                Load (groupId * localSize + (i + n)) (i + n)).
  { assert (E : hd Masked
                  (kernel (WorkItem (i + n) groupId localSize simdWidth)
                     inputLength) =
                if to_uint (groupId * localSize + (i + n)) <? inputLength
                then Load (to_uint (groupId * localSize + (i + n)))
                       (to_uint (i + n))
                else Masked)
      by (destruct Hk as [-> | ->]; reflexivity).
    rewrite E.
    rewrite (to_uint_small (groupId * localSize + (i + n))) by nia.
    rewrite (to_uint_small (i + n)) by lia.
    replace (groupId * localSize + (i + n) <? inputLength) with true
      by (symmetry; apply Z.ltb_lt; lia).
    reflexivity. }
  destruct (kernel (WorkItem (i + n) groupId localSize simdWidth)
              inputLength) as [|x t] eqn:Et.
  - simpl in Hhd. discriminate.
  - simpl in Hhd. subst x. left. reflexivity.
Qed.

Lemma unfenced_sources_in_last_group_witness :
  (reduceSimd = reduceSimd \/ reduceSimd = reduceHybrid)
  /\ 0 <= 1 /\ (1 + 2) * 4 <= uint_modulus /\ 7 <= (1 + 1) * 4
  /\ sources_loaded reduceSimd 4 4 1 7.
Proof.
  split; [left; reflexivity|]. split; [lia|].
  split; [vm_compute; congruence|]. split; [lia|].
  apply (unfenced_sources_in_last_group 4 4 1 7 reduceSimd);
    [left; reflexivity | lia | vm_compute; congruence | lia].
Defined.
